(** * Streamer: admission control and the stream engine

    A shallow embedding of [backend/app/rest/api/stream.go]: the
    [Streamer] record, the producer goroutine started by [eventsCh] and
    the consumer loop of [Activate].

    The two goroutines of one stream and the environment (the context
    being cancelled, timers firing) are interleaved by a schedule, a list
    of events; an event that is not enabled in the current state leaves it
    unchanged.  Every interleaving of the Go program is such a schedule,
    so what holds for all schedules holds for all runs. *)

From Stdlib Require Import ZArith Lia String List Bool.
From stdpp Require Import base list.
Import ListNotations.

Local Open Scope string_scope.
Local Open Scope list_scope.
Local Open Scope Z_scope.

(** ** Data *)

(** [int32] arithmetic of [atomic.AddInt32]: two's complement wrap-around. *)
Definition wrap32 (z : Z) : Z := (z + 2 ^ 31) mod 2 ^ 32 - 2 ^ 31.

Definition int32 (z : Z) : Prop := - 2 ^ 31 <= z < 2 ^ 31.

Definition AddInt32 (v delta : Z) : Z := wrap32 (v + delta).

(** Go [error] values as built with [github.com/pkg/errors]. *)
Inductive error : Type :=
| errNew (msg : string)
| errWrap (cause : error) (msg : string).

Fixpoint Error (e : error) : string :=
  match e with
  | errNew msg => msg
  | errWrap cause msg => String.append msg (String.append ": " (Error cause))
  end.

(** [[]byte]; [None] is the nil slice. *)
Definition slice : Type := option (list Byte.byte).

Record Streamer : Type := mkStreamer {
  TimeOut : Z;
  Refresh : Z;
  MaxActive : Z;
  activeCount : Z
}.

Definition setActive (s : Streamer) (c : Z) : Streamer :=
  mkStreamer (TimeOut s) (Refresh s) (MaxActive s) c.

(** [steamEventFn]: a closure without arguments is observed through its
    results only, so it is given by the result of its k-th invocation. *)
Definition steamEventFn : Type := nat -> slice * bool * option error.

Record steamEventResp : Type := mkResp {
  data : slice;
  err : option error
}.

(** What the consumer did to the sink [w]: a [Write] with its outcome,
    or a [Flush]. *)
Inductive SinkOp : Type :=
| OpWrite (p : slice) (res : option error)
| OpFlush.

(** An [io.Writer]: the error of a [Write] may depend on what was done to
    the sink so far; [isFlusher] is the outcome of [w.(http.Flusher)]. *)
Record Writer : Type := mkWriter {
  Write : list SinkOp -> slice -> option error;
  isFlusher : bool
}.

(** ** One stream *)

(** The goroutine of [eventsCh]: waiting in its [select], blocked in
    [ch <- r], or returned (the channel is closed). *)
Inductive Producer : Type :=
| PSelect
| PSend (r : steamEventResp)
| PClosed.

(** The [return] statement by which [Activate] leaves. *)
Inductive Exit : Type :=
| ByTooMany      (* line 39 *)
| ByClient       (* line 46 *)
| ByTimeout      (* line 49 *)
| ByChanClosed   (* line 52 *)
| ByRespErr      (* line 55 *)
| ByWriteErr.    (* line 58 *)

(** The goroutine of [Activate]: before line 36, in the [select] of the
    loop, at a [return] with the deferred decrement pending, returned. *)
Inductive Consumer : Type :=
| CStart
| CLoop
| CExit (x : Exit) (res : option error)
| CRet (x : Exit) (res : option error).

Record Session : Type := mkSession {
  fn : steamEventFn;        (* eventFn() *)
  w : Writer;
  cancelled : bool;         (* ctx.Done() is closed *)
  calls : nat;              (* invocations of fn so far *)
  prod : Producer;
  count : Z;                (* the local variable of line 36 *)
  cons : Consumer;
  ops : list SinkOp         (* what was done to w, oldest first *)
}.

Definition setCancelled (x : Session) : Session :=
  mkSession (fn x) (w x) true (calls x) (prod x) (count x) (cons x) (ops x).

Definition setProd (x : Session) (n : nat) (p : Producer) : Session :=
  mkSession (fn x) (w x) (cancelled x) n p (count x) (cons x) (ops x).

Definition setCons (x : Session) (c : Consumer) : Session :=
  mkSession (fn x) (w x) (cancelled x) (calls x) (prod x) (count x) c (ops x).

Definition setCount (x : Session) (n : Z) : Session :=
  mkSession (fn x) (w x) (cancelled x) (calls x) (prod x) n (cons x) (ops x).

Definition addOps (x : Session) (l : list SinkOp) : Session :=
  mkSession (fn x) (w x) (cancelled x) (calls x) (prod x) (count x) (cons x)
            (ops x ++ l).

(** Line 34: the producer is started before anything else. *)
Definition start (f : steamEventFn) (wr : Writer) : Session :=
  mkSession f wr false 0 PSelect 0 CStart [].

Inductive Event : Type :=
| EvCancel     (* the environment cancels ctx *)
| EvTick       (* producer, line 80: case <-tick.C *)
| EvProdDone   (* producer, line 78: case <-ctx.Done() *)
| EvEnter      (* consumer, lines 36-40 *)
| EvCtxDone    (* consumer, line 44: case <-ctx.Done() *)
| EvTimeout    (* consumer, line 47: case <-time.After(s.TimeOut) *)
| EvRecv       (* consumer, line 50: case resp, ok := <-updCh *)
| EvLeave.     (* consumer: the deferred decrement of line 37, return *)

Definition tooManyStreams : error := errNew "too many streams".

(** The contexts of the two [errors.Wrap] calls, lines 83 and 58. *)
Definition producerMsg : string := "can't get stream data".
Definition sinkMsg : string := "send to stream failed".

(** Lines 81-88. *)
Definition eventsCh_tick (x : Session) : Session :=
  match fn x (calls x) with
  | (_, _, Some e) =>
      setProd x (S (calls x))
              (PSend (mkResp None (Some (errWrap e producerMsg))))
  | (resp, true, None) => setProd x (S (calls x)) (PSend (mkResp resp None))
  | (_, false, None) => setProd x (S (calls x)) PSelect
  end.

(** Lines 36-40. *)
Definition Activate_enter (s : Streamer) (x : Session) : Streamer * Session :=
  let c := AddInt32 (activeCount s) 1 in
  (setActive s c,
   setCons (setCount x c)
           (if MaxActive s <? c then CExit ByTooMany (Some tooManyStreams)
            else CLoop)).

(** Lines 50-62; the producer blocked in its send goes on, to its
    [return] after an error record and to its [select] otherwise. *)
Definition Activate_recv (x : Session) : Session :=
  match prod x with
  | PSelect => x
  | PClosed => setCons x (CExit ByChanClosed None)
  | PSend r =>
      match err r with
      | Some e => setCons (setProd x (calls x) PClosed) (CExit ByRespErr (Some e))
      | None =>
          let x' := setProd x (calls x) PSelect in
          match Write (w x) (ops x) (data r) with
          | Some e =>
              setCons (addOps x' [OpWrite (data r) (Some e)])
                      (CExit ByWriteErr (Some (errWrap e sinkMsg)))
          | None =>
              addOps x' (OpWrite (data r) None
                         :: if isFlusher (w x) then [OpFlush] else [])
          end
      end
  end.

Definition step (s : Streamer) (x : Session) (e : Event) : Streamer * Session :=
  match e with
  | EvCancel => (s, setCancelled x)
  | EvTick =>
      match prod x with
      | PSelect => (s, eventsCh_tick x)
      | _ => (s, x)
      end
  | EvProdDone =>
      match prod x with
      | PSelect => (s, if cancelled x then setProd x (calls x) PClosed else x)
      | _ => (s, x)
      end
  | EvEnter =>
      match cons x with
      | CStart => Activate_enter s x
      | _ => (s, x)
      end
  | EvCtxDone =>
      match cons x with
      | CLoop => (s, if cancelled x then setCons x (CExit ByClient None) else x)
      | _ => (s, x)
      end
  | EvTimeout =>
      match cons x with
      | CLoop => (s, setCons x (CExit ByTimeout None))
      | _ => (s, x)
      end
  | EvRecv =>
      match cons x with
      | CLoop => (s, Activate_recv x)
      | _ => (s, x)
      end
  | EvLeave =>
      match cons x with
      | CExit c r => (setActive s (AddInt32 (activeCount s) (-1)), setCons x (CRet c r))
      | _ => (s, x)
      end
  end.

Fixpoint run (s : Streamer) (x : Session) (sched : list Event) : Streamer * Session :=
  match sched with
  | [] => (s, x)
  | e :: sched' => let '(s', x') := step s x e in run s' x' sched'
  end.

(** One call of [Activate] under a schedule. *)
Definition Activate (s : Streamer) (f : steamEventFn) (wr : Writer)
           (sched : list Event) : Streamer * Session :=
  run s (start f wr) sched.

(** The value [Activate] returned, if it has returned. *)
Definition returned (x : Session) : option (option error) :=
  match cons x with
  | CRet _ r => Some r
  | _ => None
  end.

(** The results of the first [n] invocations of the check function. *)
Fixpoint polled (f : steamEventFn) (n : nat) : list (slice * bool * option error) :=
  match n with
  | O => []
  | S k => polled f k ++ [f k]
  end.

(** Payloads of the results that reported [changed = true]. *)
Definition changedOf (l : list (slice * bool * option error)) : list slice :=
  flat_map (fun r => match r with (p, true, _) => [p] | _ => [] end) l.

(** Payloads of the results that reported [changed = true] and no error. *)
Definition producedOf (l : list (slice * bool * option error)) : list slice :=
  flat_map (fun r => match r with (p, true, None) => [p] | _ => [] end) l.

(** Payloads handed to [w.Write], in order. *)
Definition writes (l : list SinkOp) : list slice :=
  flat_map (fun o => match o with OpWrite p _ => [p] | OpFlush => [] end) l.

(** The payload of the record the producer is blocked sending. *)
Definition pending (x : Session) : list slice :=
  match prod x with
  | PSend (mkResp p None) => [p]
  | _ => []
  end.

(** ** Several streams on one [Streamer] *)

Record System : Type := mkSystem {
  streamer : Streamer;
  sessions : list Session
}.

(** Stream [i] makes a move. *)
Definition sys_step (S : System) (ie : nat * Event) : System :=
  match sessions S !! fst ie with
  | Some x =>
      let '(s', x') := step (streamer S) x (snd ie) in
      mkSystem s' (<[fst ie := x']> (sessions S))
  | None => S
  end.

Fixpoint exec (S : System) (sched : list (nat * Event)) : System :=
  match sched with
  | [] => S
  | ie :: sched' => exec (sys_step S ie) sched'
  end.

Fixpoint countb (p : Session -> bool) (l : list Session) : nat :=
  match l with
  | [] => O
  | x :: l' => ((if p x then 1 else 0) + countb p l')%nat
  end.

(** Between its increment and its decrement. *)
Definition inflight (x : Session) : bool :=
  match cons x with
  | CLoop | CExit _ _ => true
  | _ => false
  end.

Definition entered (x : Session) : bool :=
  match cons x with
  | CStart => false
  | _ => true
  end.

Definition rejected (x : Session) : bool :=
  match cons x with
  | CExit ByTooMany _ | CRet ByTooMany _ => true
  | _ => false
  end.

(** An accepted stream that has ended and given its slot back. *)
Definition released (x : Session) : bool :=
  match cons x with
  | CRet ByTooMany _ => false
  | CRet _ _ => true
  | _ => false
  end.

(** [n] calls of [Activate] on a streamer nobody uses yet. *)
Definition fresh (S : System) : Prop :=
  activeCount (streamer S) = 0 /\
  Forall (fun x => cons x = CStart /\ ops x = []) (sessions S).

(** ** One stream with a clock

    Time is counted from the call of [Activate].  The ticker of line 71
    fires every [Refresh]; the timer of line 47 is made anew by every
    iteration of the loop and fires [TimeOut] later.  The work of an
    iteration takes no time, and a timer that is due wins against a tick
    of the same instant. *)
Record Timed : Type := mkTimed {
  tsess : Session;
  nextTick : Z;               (* when tick.C fires next *)
  waitStart : Z;              (* when the current select began *)
  trace : list (Z * Event)    (* what happened, and when *)
}.

Definition timed_step (s : Streamer) (t : Timed) : Timed :=
  match cons (tsess t) with
  | CLoop =>
      let deadline := waitStart t + TimeOut s in
      if nextTick t <? deadline then
        let x1 := snd (step s (tsess t) EvTick) in
        match prod x1 with
        | PSend _ =>
            mkTimed (snd (step s x1 EvRecv)) (nextTick t + Refresh s) (nextTick t)
                    (trace t ++ [(nextTick t, EvTick); (nextTick t, EvRecv)])
        | _ =>
            mkTimed x1 (nextTick t + Refresh s) (waitStart t)
                    (trace t ++ [(nextTick t, EvTick)])
        end
      else
        mkTimed (snd (step s (tsess t) EvTimeout)) (nextTick t) (waitStart t)
                (trace t ++ [(deadline, EvTimeout)])
  | _ => t
  end.

Fixpoint timed_run (s : Streamer) (t : Timed) (fuel : nat) : Timed :=
  match fuel with
  | O => t
  | S k => timed_run s (timed_step s t) k
  end.

(** [Activate] on a streamer with no other stream, nobody cancelling. *)
Definition timedActivate (s : Streamer) (f : steamEventFn) (wr : Writer)
           (fuel : nat) : Timed :=
  let '(s', x) := step s (start f wr) EvEnter in
  timed_run s' (mkTimed x (Refresh s) 0 [(0, EvEnter)]) fuel.

(** When the consumer received a record. *)
Definition deliveries (tr : list (Z * Event)) : list Z :=
  flat_map (fun te => match te with (t, EvRecv) => [t] | _ => [] end) tr.

(** Every delivery comes less than [T] after the one before it, the
    first one less than [T] after [prev]. *)
Fixpoint gaps_below (T prev : Z) (l : list Z) : Prop :=
  match l with
  | [] => True
  | d :: l' => prev < d < prev + T /\ gaps_below T d l'
  end.

(** ** Invariants of a stream *)

(** The [return] statement taken and its value, once taken. *)
Definition exitOf (x : Session) : option (Exit * option error) :=
  match cons x with
  | CExit c r | CRet c r => Some (c, r)
  | _ => None
  end.

(** What the admission check of lines 36-40 leaves behind, for a
    streamer with [MaxActive = M]. *)
Definition admission_inv (M : Z) (x : Session) : Prop :=
  match cons x with
  | CStart => ops x = []
  | CLoop => count x <= M
  | CExit ByTooMany r | CRet ByTooMany r =>
      r = Some tooManyStreams /\ ops x = [] /\ M < count x
  | CExit _ _ | CRet _ _ => count x <= M
  end.

(** A call that is going to be rejected: not yet at line 36 with the
    counter at [c0], or rejected. *)
Definition rejecting (M c0 : Z) (s : Streamer) (x : Session) : Prop :=
  MaxActive s = M /\
  match cons x with
  | CStart => activeCount s = c0 /\ ops x = []
  | CExit ByTooMany r | CRet ByTooMany r => r = Some tooManyStreams /\ ops x = []
  | _ => False
  end.

(** The record in the producer's pending send, if it carries an error:
    no payload, and the error of the last poll, wrapped. *)
Definition send_inv (x : Session) : Prop :=
  forall r e', prod x = PSend r -> err r = Some e' ->
    data r = None /\
    exists k e, calls x = S k /\ snd (fn x k) = Some e /\ e' = errWrap e producerMsg.

(** The value each [return] statement gives. *)
Definition exit_shape (x : Session) : Prop :=
  match exitOf x with
  | None => True
  | Some (ByTooMany, r) => r = Some tooManyStreams
  | Some (ByClient, r) => r = None /\ cancelled x = true
  | Some (ByTimeout, r) | Some (ByChanClosed, r) => r = None
  | Some (ByRespErr, r) =>
      exists k e, (k < calls x)%nat /\ snd (fn x k) = Some e /\
                  r = Some (errWrap e producerMsg)
  | Some (ByWriteErr, r) => exists e, r = Some (errWrap e sinkMsg)
  end.

(** Events that leave a consumer waiting in its [select] where it is. *)
Definition quiet (e : Event) : bool :=
  match e with
  | EvCtxDone | EvTimeout | EvRecv => false
  | _ => true
  end.

(** The producer has stopped polling: it is sending an error record or
    has returned. *)
Definition stopped (x : Session) : Prop :=
  prod x = PClosed \/ exists r e, prod x = PSend r /\ err r = Some e.

(** A check function that never reports a change and never fails. *)
Definition silent (f : steamEventFn) : Prop :=
  forall k, exists p, f k = (p, false, None).

(** A stream of a silent check function on a streamer with
    [MaxActive = M], the counter at [c0] before the call. *)
Definition silent_inv (M c0 : Z) (s : Streamer) (x : Session) : Prop :=
  MaxActive s = M /\ ops x = [] /\
  match prod x with
  | PSelect => True
  | PClosed => cancelled x = true
  | PSend _ => False
  end /\
  match cons x with
  | CStart => activeCount s = c0
  | CLoop => True
  | CExit c r | CRet c r =>
      r = None /\
      match c with
      | ByTimeout => True
      | ByClient | ByChanClosed => cancelled x = true
      | _ => False
      end
  end.

(** What reached the sink, and what is on its way, is what was produced. *)
Definition delivery_inv (x : Session) : Prop :=
  writes (ops x) ++ pending x = producedOf (polled (fn x) (calls x)).

(** ** Invariants of a streamer with its streams *)

(** Accepted by the admission check. *)
Definition accepted (x : Session) : bool := entered x && negb (rejected x).

(** The [n] streams of a streamer with [MaxActive = N] that started with
    its counter at zero: the counter is the number of calls between their
    increment and their decrement; and as long as no accepted stream has
    ended, at most [N] are accepted, and exactly [N] once one is
    rejected. *)
Definition sys_inv (N : Z) (n : nat) (S : System) : Prop :=
  MaxActive (streamer S) = N /\
  length (sessions S) = n /\
  activeCount (streamer S) = Z.of_nat (countb inflight (sessions S)) /\
  Forall (fun x => admission_inv N x /\ (entered x = true -> 1 <= count x))
         (sessions S) /\
  (countb released (sessions S) = 0%nat ->
   Z.of_nat (countb accepted (sessions S)) <= N /\
   ((0 < countb rejected (sessions S))%nat ->
    Z.of_nat (countb accepted (sessions S)) = N)).

(** The counter of one call of [Activate] that found it at [c]. *)
Definition counter_inv (c : Z) (s : Streamer) (x : Session) : Prop :=
  match cons x with
  | CStart | CRet _ _ => activeCount s = c
  | CLoop | CExit _ _ => activeCount s = AddInt32 c 1
  end.

(** ** Invariant of a stream with a clock *)

(** Every record was received less than [TimeOut] after the one before;
    a consumer in its loop waits since the last one was received, the
    ticker still to fire; a consumer that left by the timeout did so
    [TimeOut] after the last record was received, with nil. *)
Definition timed_inv (s : Streamer) (t : Timed) : Prop :=
  gaps_below (TimeOut s) 0 (deliveries (trace t)) /\
  match cons (tsess t) with
  | CLoop =>
      prod (tsess t) = PSelect /\
      waitStart t = List.last (deliveries (trace t)) 0 /\
      waitStart t < nextTick t
  | CExit ByTimeout r =>
      r = None /\
      exists tr, trace t = tr ++ [(List.last (deliveries tr) 0 + TimeOut s, EvTimeout)]
  | _ => True
  end.

(** A check function that reports a change at every poll. *)
Definition busy (f : steamEventFn) : Prop :=
  forall k, exists p, f k = (p, true, None).

(** A sink that takes every write. *)
Definition sound (wr : Writer) : Prop :=
  forall o p, Write wr o p = None.

(** A stream in its loop that has just taken a record, or just begun. *)
Definition busy_inv (s : Streamer) (f : steamEventFn) (wr : Writer) (t : Timed) : Prop :=
  cons (tsess t) = CLoop /\ prod (tsess t) = PSelect /\
  fn (tsess t) = f /\ w (tsess t) = wr /\
  nextTick t = waitStart t + Refresh s.

(** ** Sample streamers, check functions and sinks *)

Definition payload (n : nat) : slice := Some [default Byte.x00 (Byte.of_nat n)].

Definition alwaysChanged : steamEventFn := fun k => (payload k, true, None).
Definition neverChanged : steamEventFn := fun _ => (None, false, None).
Definition failsAt (n : nat) : steamEventFn :=
  fun k => if (k =? n)%nat then (None, false, Some (errNew "boom"))
           else (payload k, true, None).

Definition goodWriter : Writer := mkWriter (fun _ _ => None) true.
Definition plainWriter : Writer := mkWriter (fun _ _ => None) false.
Definition brokenWriter : Writer := mkWriter (fun _ _ => Some (errNew "broken pipe")) true.

(** One stream may be served. *)
Definition oneStreamer : Streamer := mkStreamer 300 1 1 0.

(** A streamer that serves no stream: [MaxActive = 0]. *)
Definition closedStreamer : Streamer := mkStreamer 300 1 0 0.

(** A ticker of 2 against a timeout of 3. *)
Definition tightStreamer : Streamer := mkStreamer 3 2 1 0.

(** The calls of the streamer's own test: twenty at once, ten allowed. *)
Definition twentyCalls : System :=
  mkSystem (mkStreamer 300 1 10 0) (replicate 20 (start neverChanged goodWriter)).

Definition allOf (e : Event) (n : nat) : list (nat * Event) :=
  map (fun i => (i, e)) (seq 0 n).

(** Three calls on a streamer that serves one stream. *)
Definition threeCalls : System :=
  mkSystem oneStreamer
           [start alwaysChanged goodWriter; start neverChanged plainWriter;
            start (failsAt 0) goodWriter].


(** ** Further invariants *)

(** Accepted and not yet at its deferred decrement: the stream holds one
    of the [MaxActive] slots. *)
Definition streaming (x : Session) : bool := inflight x && negb (rejected x).

(** The streams of a streamer with [MaxActive = N] whose counter started
    at zero: the counter counts the calls between increment and
    decrement, and the accepted ones among them are at most [N]. *)
Definition slots_inv (N : Z) (n : nat) (S : System) : Prop :=
  MaxActive (streamer S) = N /\
  length (sessions S) = n /\
  activeCount (streamer S) = Z.of_nat (countb inflight (sessions S)) /\
  Z.of_nat (countb streaming (sessions S)) <= Z.max N 0.

(** A write that failed. *)
Definition failedOp (o : SinkOp) : bool :=
  match o with
  | OpWrite _ (Some _) => true
  | _ => false
  end.

(** What handing the payloads [ps], one after the other, to the sink
    [wr] does to it when [hist] was done before: each payload is written;
    a write that succeeds is followed by a flush if the sink is a flusher;
    the first write that fails is the end. *)
Fixpoint feed (wr : Writer) (hist : list SinkOp) (ps : list slice) : list SinkOp :=
  match ps with
  | [] => []
  | p :: ps' =>
      match Write wr hist p with
      | Some e => [OpWrite p (Some e)]
      | None =>
          let blk := OpWrite p None :: (if isFlusher wr then [OpFlush] else []) in
          blk ++ feed wr (hist ++ blk) ps'
      end
  end.

(** The sink of a stream: what was done to it is what feeding it the
    written payloads does; a write has failed exactly when [Activate] is
    at the [return] of line 58, with that failure wrapped. *)
Definition sink_inv (x : Session) : Prop :=
  ops x = feed (w x) [] (writes (ops x)) /\
  match cons x with
  | CExit ByWriteErr r | CRet ByWriteErr r =>
      exists o p e,
        ops x = o ++ [OpWrite p (Some e)] /\ existsb failedOp o = false /\
        Write (w x) o p = Some e /\ r = Some (errWrap e sinkMsg)
  | _ => existsb failedOp (ops x) = false
  end.

(** The producer has returned only after a cancellation or after the
    consumer took its error record. *)
Definition closed_inv (x : Session) : Prop :=
  prod x = PClosed ->
  cancelled x = true \/ exists r, exitOf x = Some (ByRespErr, r).

(** The ticks of the producer's ticker in a schedule. *)
Fixpoint ticks (sched : list Event) : nat :=
  match sched with
  | [] => O
  | EvTick :: l => S (ticks l)
  | _ :: l => ticks l
  end.

(** The moves of stream [i] in a schedule of a system. *)
Fixpoint eventsOf (i : nat) (sched : list (nat * Event)) : list Event :=
  match sched with
  | [] => []
  | (j, e) :: l => if (j =? i)%nat then e :: eventsOf i l else eventsOf i l
  end.

(** A call that is going to be accepted: not yet at line 36 with the
    counter at [c0], or accepted with the count it got there. *)
Definition accepting (M c0 : Z) (s : Streamer) (x : Session) : Prop :=
  match cons x with
  | CStart => activeCount s = c0 /\ MaxActive s = M
  | CExit ByTooMany _ | CRet ByTooMany _ => False
  | _ => count x = AddInt32 c0 1
  end.

(** A streamer whose counter is at the largest [int32]. *)
Definition fullStreamer : Streamer := mkStreamer 300 1 0 (2 ^ 31 - 1).
(** * Properties *)

(** ** Arithmetic of the counter *)

Lemma wrap32_id z : int32 z -> wrap32 z = z.
Proof.
  unfold int32, wrap32. intros H.
  rewrite Z.mod_small; lia.
Qed.

Lemma wrap32_int32 z : int32 (wrap32 z).
Proof.
  unfold int32, wrap32.
  pose proof (Z.mod_pos_bound (z + 2 ^ 31) (2 ^ 32)). lia.
Qed.

Lemma wrap32_shift z d : wrap32 (wrap32 z + d) = wrap32 (z + d).
Proof.
  unfold wrap32.
  replace ((z + 2 ^ 31) mod 2 ^ 32 - 2 ^ 31 + d + 2 ^ 31)
    with ((z + 2 ^ 31) mod 2 ^ 32 + d) by lia.
  replace (z + d + 2 ^ 31) with ((z + 2 ^ 31) + d) by lia.
  rewrite Zplus_mod_idemp_l. reflexivity.
Qed.

(** The decrement undoes the increment, wrap-around included. *)
Lemma AddInt32_undo c : int32 c -> AddInt32 (AddInt32 c 1) (-1) = c.
Proof.
  intros H. unfold AddInt32. rewrite wrap32_shift.
  replace (c + 1 + -1) with c by lia. now apply wrap32_id.
Qed.

(** ** Schedules *)

Lemma run_app s x a b :
  run s x (a ++ b) = run (fst (run s x a)) (snd (run s x a)) b.
Proof.
  revert s x. induction a as [|e a IH]; intros s x; simpl; [reflexivity|].
  destruct (step s x e) as [s' x']. apply IH.
Qed.

Lemma run_cons s x e l :
  run s x (e :: l) = run (fst (step s x e)) (snd (step s x e)) l.
Proof. simpl. now destruct (step s x e). Qed.

(** What every step keeps, every run keeps. *)
Lemma run_invariant (P : Streamer -> Session -> Prop) :
  (forall s x e, P s x -> P (fst (step s x e)) (snd (step s x e))) ->
  forall sched s x, P s x -> P (fst (run s x sched)) (snd (run s x sched)).
Proof.
  intros Hstep sched. induction sched as [|e l IH]; intros s x HP; [exact HP|].
  rewrite run_cons. apply IH, Hstep, HP.
Qed.

Ltac goal_match :=
  match goal with
  | |- context [match ?t with _ => _ end] =>
      lazymatch t with
      | context [match _ with _ => _ end] => fail
      | _ => first [is_var t; destruct t | destruct t eqn:?]
      end
  end.

(** Case analysis on one step of a stream given by its fields. *)
Ltac step_cases :=
  unfold step, Activate_enter, Activate_recv, eventsCh_tick;
  simpl; repeat (goal_match; simpl).

Ltac session_cases x e := destruct x; destruct e; step_cases.

(** The streamer's configuration is never written. *)
Lemma step_config s x e :
  MaxActive (fst (step s x e)) = MaxActive s /\
  TimeOut (fst (step s x e)) = TimeOut s /\
  Refresh (fst (step s x e)) = Refresh s.
Proof. session_cases x e; auto. Qed.

(** The check function and the sink of a stream stay the same. *)
Lemma step_same_fn_w s x e :
  fn (snd (step s x e)) = fn x /\ w (snd (step s x e)) = w x.
Proof. session_cases x e; auto. Qed.

(** ** Phases of the consumer *)

Lemma step_entered s x e :
  entered x = true -> entered (snd (step s x e)) = true.
Proof. unfold entered. session_cases x e; congruence. Qed.

Lemma step_enter_now s x : entered (snd (step s x EvEnter)) = true.
Proof. unfold entered. destruct x. step_cases; congruence. Qed.

Lemma step_exitOf s x e cr :
  exitOf x = Some cr -> exitOf (snd (step s x e)) = Some cr.
Proof. unfold exitOf. session_cases x e; congruence. Qed.

Lemma step_leave_now s x c r :
  exitOf x = Some (c, r) -> cons (snd (step s x EvLeave)) = CRet c r.
Proof. unfold exitOf. destruct x. step_cases; congruence. Qed.

Lemma step_ret s x e c r :
  cons x = CRet c r -> cons (snd (step s x e)) = CRet c r.
Proof. session_cases x e; congruence. Qed.

Lemma run_entered s x l :
  entered x = true -> entered (snd (run s x l)) = true.
Proof.
  revert s x. apply (run_invariant (fun _ x => entered x = true)).
  intros; now apply step_entered.
Qed.

Lemma run_exitOf s x l cr :
  exitOf x = Some cr -> exitOf (snd (run s x l)) = Some cr.
Proof.
  revert s x. apply (run_invariant (fun _ x => exitOf x = Some cr)).
  intros; now apply step_exitOf.
Qed.

Lemma run_ret s x l c r :
  cons x = CRet c r -> cons (snd (run s x l)) = CRet c r.
Proof.
  revert s x. apply (run_invariant (fun _ x => cons x = CRet c r)).
  intros; now apply step_ret.
Qed.

(** Once the consumer has been scheduled at line 36 and, later, at its
    deferred call, it has returned what its [return] statement gave. *)
Lemma run_enter_leave s x pre mid post :
  let x1 := snd (run s x (pre ++ [EvEnter])) in
  forall c r, exitOf (snd (run (fst (run s x (pre ++ [EvEnter]))) x1 mid)) = Some (c, r) ->
  cons (snd (run s x (pre ++ EvEnter :: mid ++ EvLeave :: post))) = CRet c r.
Proof.
  intros x1 c r H.
  replace (pre ++ EvEnter :: mid ++ EvLeave :: post)
    with ((pre ++ [EvEnter]) ++ mid ++ EvLeave :: post)
    by (rewrite <- app_assoc; reflexivity).
  rewrite run_app, run_app, run_cons.
  apply run_ret. now apply step_leave_now.
Qed.

Lemma run_enter_entered s x pre :
  entered (snd (run s x (pre ++ [EvEnter]))) = true.
Proof.
  rewrite run_app, run_cons. simpl. apply step_enter_now.
Qed.

(** ** The rejection path *)

Lemma step_admission_inv s x e :
  admission_inv (MaxActive s) x ->
  admission_inv (MaxActive s) (snd (step s x e)).
Proof.
  unfold admission_inv. session_cases x e; try tauto; try lia;
    intuition (try congruence; try lia).
Qed.

Lemma step_rejecting M c0 s x e :
  M < AddInt32 c0 1 ->
  rejecting M c0 s x -> rejecting M c0 (fst (step s x e)) (snd (step s x e)).
Proof.
  unfold rejecting. intros HM. session_cases x e;
    intuition (subst; try congruence; try lia).
Qed.

Lemma Activate_rejecting s f wr sched :
  MaxActive s < AddInt32 (activeCount s) 1 ->
  rejecting (MaxActive s) (activeCount s)
            (fst (Activate s f wr sched)) (snd (Activate s f wr sched)).
Proof.
  intros HM. unfold Activate.
  apply (run_invariant (rejecting (MaxActive s) (activeCount s))).
  - intros; now apply step_rejecting.
  - unfold rejecting, start; simpl; auto.
Qed.

(** C9: when the count after the increment exceeds [MaxActive], under
    every schedule nothing is ever done to the sink and the only value
    [Activate] can return is the too-many-streams error; and once the
    consumer has been scheduled at line 36 and at its deferred call, it
    has returned that error, the sink untouched. *)
Theorem C9_rejection_leaves_sink_untouched s f wr :
  MaxActive s < AddInt32 (activeCount s) 1 ->
  (forall sched,
      ops (snd (Activate s f wr sched)) = [] /\
      forall r, returned (snd (Activate s f wr sched)) = Some r ->
                r = Some tooManyStreams) /\
  (forall pre mid post,
      let x := snd (Activate s f wr (pre ++ EvEnter :: mid ++ EvLeave :: post)) in
      returned x = Some (Some tooManyStreams) /\ ops x = []).
Proof.
  intros HM.
  assert (Hall : forall sched,
      ops (snd (Activate s f wr sched)) = [] /\
      forall c r, exitOf (snd (Activate s f wr sched)) = Some (c, r) ->
                  c = ByTooMany /\ r = Some tooManyStreams).
  { intros sched. destruct (Activate_rejecting s f wr sched HM) as [_ H].
    unfold exitOf. destruct (cons (snd (Activate s f wr sched))) as [| |c r|c r];
      try destruct c; intuition (try congruence). }
  split.
  - intros sched. destruct (Hall sched) as [Hops Hex]. split; [exact Hops|].
    intros r Hr. unfold returned in Hr. unfold exitOf in Hex.
    destruct (cons (snd (Activate s f wr sched))) as [| |c r'|c r']; try discriminate.
    injection Hr as <-. now destruct (Hex c r' eq_refl).
  - intros pre mid post x. split; [|apply Hall].
    subst x. unfold returned, Activate.
    set (l1 := pre ++ [EvEnter]).
    assert (Hent : entered (snd (run s (start f wr) l1)) = true).
    { apply run_enter_entered. }
    destruct (Hall l1) as [_ Hex]. unfold Activate in Hex.
    assert (Hx : exitOf (snd (run s (start f wr) l1)) = Some (ByTooMany, Some tooManyStreams)).
    { pose proof (Activate_rejecting s f wr l1 HM) as [_ H]. unfold Activate in H.
      unfold exitOf, entered in *.
      destruct (cons (snd (run s (start f wr) l1))) as [| |c r|c r];
        try discriminate; try tauto.
      - now destruct (Hex c r eq_refl) as [-> ->].
      - now destruct (Hex c r eq_refl) as [-> ->]. }
    rewrite (run_enter_leave s (start f wr) pre mid post ByTooMany (Some tooManyStreams));
      [reflexivity|].
    apply run_exitOf. exact Hx.
Qed.

Lemma C9_witness :
  MaxActive closedStreamer < AddInt32 (activeCount closedStreamer) 1 /\
  returned (snd (Activate closedStreamer alwaysChanged goodWriter
                          ([EvTick] ++ EvEnter :: [EvRecv] ++ EvLeave :: [])))
  = Some (Some tooManyStreams).
Proof.
  split; [vm_compute; reflexivity|].
  apply (C9_rejection_leaves_sink_untouched closedStreamer alwaysChanged goodWriter).
  vm_compute; reflexivity.
Defined.

(** ** What the records and the return values look like *)

Lemma step_send_inv s x e : send_inv x -> send_inv (snd (step s x e)).
Proof.
  unfold send_inv.
  session_cases x e; intros H r' e' Hp He; simplify_eq/=.
  all: try (now eapply H).
  all: split; [reflexivity|]; eexists; eexists; repeat split;
    match goal with E : _ = (_, _, _) |- _ => rewrite E end; reflexivity.
Qed.

Lemma step_exit_shape s x e :
  send_inv x -> exit_shape x -> exit_shape (snd (step s x e)).
Proof.
  unfold exit_shape, send_inv, exitOf.
  session_cases x e; intros Hs H; simplify_eq/=; auto.
  all: try tauto.
  all: try (destruct H as (k & e0 & Hk & Hf & Hr); exists k, e0;
            repeat split; [lia|assumption|assumption]).
  - destruct (Hs _ _ eq_refl ltac:(eassumption)) as (_ & k & e0 & -> & Hf & ->).
    exists k, e0. repeat split; [lia|assumption].
  - eexists; reflexivity.
Qed.

Lemma Activate_shapes s f wr sched :
  send_inv (snd (Activate s f wr sched)) /\
  exit_shape (snd (Activate s f wr sched)).
Proof.
  unfold Activate.
  apply (run_invariant (fun _ x => send_inv x /\ exit_shape x)).
  - intros s' x e [H1 H2]. split; [now apply step_send_inv|now apply step_exit_shape].
  - split.
    + intros r e'; simpl; discriminate.
    + exact I.
Qed.

(** Once [Activate] is at a [return], the sink is left alone. *)
Lemma step_ops_frozen s x e :
  cons x <> CLoop -> ops (snd (step s x e)) = ops x.
Proof. session_cases x e; congruence. Qed.

Lemma run_ops_exited s x l cr :
  exitOf x = Some cr -> ops (snd (run s x l)) = ops x.
Proof.
  intros H.
  enough (exitOf (snd (run s x l)) = Some cr /\ ops (snd (run s x l)) = ops x) by tauto.
  apply (run_invariant (fun _ y => exitOf y = Some cr /\ ops y = ops x)); [|auto].
  intros s' y e [H1 H2]. split; [now apply step_exitOf|].
  rewrite step_ops_frozen; [exact H2|].
  unfold exitOf in H1. destruct (cons y); congruence.
Qed.

Lemma Activate_fn_w s f wr sched :
  fn (snd (Activate s f wr sched)) = f /\ w (snd (Activate s f wr sched)) = wr.
Proof.
  unfold Activate.
  apply (run_invariant (fun _ x => fn x = f /\ w x = wr)); [|auto].
  intros s' x e [H1 H2]. destruct (step_same_fn_w s' x e) as [-> ->]. auto.
Qed.

(** From a [return] statement to the caller: the deferred call runs,
    and nothing else happens to the result or to the sink. *)
Lemma run_exit_return s x l mid post c r :
  exitOf (snd (run s x l)) = Some (c, r) ->
  returned (snd (run s x (l ++ mid ++ EvLeave :: post))) = Some r /\
  ops (snd (run s x (l ++ mid ++ EvLeave :: post))) = ops (snd (run s x l)).
Proof.
  intros H. rewrite run_app. split.
  - unfold returned. rewrite run_app, run_cons.
    erewrite run_ret; [reflexivity|].
    apply step_leave_now. apply run_exitOf. exact H.
  - eapply run_ops_exited. exact H.
Qed.

(** ** A consumer left waiting *)

Lemma step_quiet s x e :
  quiet e = true -> cons x = CLoop ->
  fst (step s x e) = s /\
  cons (snd (step s x e)) = CLoop /\
  ops (snd (step s x e)) = ops x /\
  (cancelled x = true -> cancelled (snd (step s x e)) = true) /\
  (prod x <> PSelect ->
   prod (snd (step s x e)) = prod x /\ calls (snd (step s x e)) = calls x).
Proof.
  session_cases x e; intros; simplify_eq/=; repeat split; congruence.
Qed.

Lemma run_quiet s x idle :
  forallb quiet idle = true -> cons x = CLoop ->
  fst (run s x idle) = s /\
  cons (snd (run s x idle)) = CLoop /\
  ops (snd (run s x idle)) = ops x /\
  (cancelled x = true -> cancelled (snd (run s x idle)) = true) /\
  (prod x <> PSelect ->
   prod (snd (run s x idle)) = prod x /\ calls (snd (run s x idle)) = calls x).
Proof.
  revert x. induction idle as [|e l IH]; intros x Hq Hc.
  - simpl. tauto.
  - simpl in Hq. apply andb_true_iff in Hq as [He Hl].
    rewrite run_cons.
    destruct (step_quiet s x e He Hc) as (Hs & Hc' & Ho & Hcan & Hp).
    rewrite Hs. destruct (IH _ Hl Hc') as (Hs2 & Hc2 & Ho2 & Hcan2 & Hp2).
    repeat split; try congruence.
    + intros H. auto.
    + destruct (Hp H) as [E1 E2]. rewrite <- E1. apply Hp2. congruence.
    + destruct (Hp H) as [E1 E2]. rewrite <- E2. apply Hp2. congruence.
Qed.

(** ** A producer that has stopped polling *)

Lemma step_stopped s x e :
  stopped x ->
  stopped (snd (step s x e)) /\
  calls (snd (step s x e)) = calls x /\
  ops (snd (step s x e)) = ops x.
Proof.
  unfold stopped.
  session_cases x e; intros [H|(r' & e' & H & He)]; simplify_eq/=;
    repeat split; eauto.
Qed.

Lemma run_stopped s x l :
  stopped x ->
  stopped (snd (run s x l)) /\
  calls (snd (run s x l)) = calls x /\
  ops (snd (run s x l)) = ops x.
Proof.
  intros H.
  apply (run_invariant (fun _ y => stopped y /\ calls y = calls x /\ ops y = ops x));
    [|auto].
  intros s' y e (H1 & H2 & H3).
  destruct (step_stopped s' y e H1) as (G1 & G2 & G3).
  repeat split; congruence.
Qed.

(** The consumer, waiting in its [select], picks the channel: what the
    lines 50-62 do with the record of the pending send. *)
Lemma recv_after_idle s x idle r :
  forallb quiet idle = true -> cons x = CLoop -> prod x = PSend r ->
  run s x (idle ++ [EvRecv]) =
  (s, Activate_recv (snd (run s x idle))) /\
  prod (snd (run s x idle)) = PSend r /\
  ops (snd (run s x idle)) = ops x /\
  calls (snd (run s x idle)) = calls x.
Proof.
  intros Hq Hc Hp.
  destruct (run_quiet s x idle Hq Hc) as (Hs & Hc' & Ho & _ & Hp').
  destruct Hp' as [Hp1 Hp2]; [congruence|].
  repeat split; try congruence.
  rewrite run_app, run_cons, Hs. simpl. now rewrite Hc'.
Qed.

(** C10: a record the producer sends with an error has a nil payload;
    from then on nothing is written to the sink under any schedule; and a
    consumer waiting in its loop that receives the record returns that
    error, the sink as it was. *)
Theorem C10_error_record_writes_nothing s f wr sched r e :
  let s1 := fst (Activate s f wr sched) in
  let x := snd (Activate s f wr sched) in
  prod x = PSend r -> err r = Some e ->
  data r = None /\
  (forall more, ops (snd (run s1 x more)) = ops x) /\
  (cons x = CLoop ->
   forall idle mid post, forallb quiet idle = true ->
     let y := snd (run s1 x (idle ++ EvRecv :: mid ++ EvLeave :: post)) in
     returned y = Some (Some e) /\ ops y = ops x).
Proof.
  intros s1 x Hp He.
  destruct (Activate_shapes s f wr sched) as [Hsend _].
  destruct (Hsend r e Hp He) as [Hd _].
  assert (Hst : stopped x) by (right; eauto).
  split; [exact Hd|]. split.
  - intros more. now destruct (run_stopped s1 x more Hst) as (_ & _ & ->).
  - intros Hc idle mid post Hq y.
    destruct (recv_after_idle s1 x idle r Hq Hc Hp) as (Hrun & Hp' & Ho & _).
    assert (Hex : exitOf (snd (run s1 x (idle ++ [EvRecv]))) = Some (ByRespErr, Some e)).
    { rewrite Hrun. unfold exitOf, Activate_recv. simpl. rewrite Hp', He. reflexivity. }
    destruct (run_exit_return s1 x (idle ++ [EvRecv]) mid post _ _ Hex) as [R O].
    subst y. rewrite <- app_assoc in R, O. simpl in R, O.
    split; [exact R|]. rewrite O.
    now destruct (run_stopped s1 x (idle ++ [EvRecv]) Hst) as (_ & _ & ->).
Qed.

Lemma C10_witness :
  let x := snd (Activate oneStreamer (failsAt 0) goodWriter [EvEnter; EvTick]) in
  data (mkResp None (Some (errWrap (errNew "boom") producerMsg))) = None /\
  returned (snd (run (fst (Activate oneStreamer (failsAt 0) goodWriter [EvEnter; EvTick]))
                     x ([EvCancel] ++ EvRecv :: [EvTick] ++ EvLeave :: [])))
  = Some (Some (errWrap (errNew "boom") producerMsg)).
Proof.
  intros x.
  destruct (C10_error_record_writes_nothing oneStreamer (failsAt 0) goodWriter
              [EvEnter; EvTick]
              (mkResp None (Some (errWrap (errNew "boom") producerMsg)))
              (errWrap (errNew "boom") producerMsg) eq_refl eq_refl)
    as (Hd & _ & Hret).
  split; [exact Hd|].
  exact (proj1 (Hret eq_refl [EvCancel] [EvTick] [] eq_refl)).
Defined.

(** ** A failing check function *)

(** The check function fails with "boom" at its first poll; the consumer
    receives the record and [Activate] returns: not that error, but that
    error wrapped by the producer. *)
Lemma C4_counterexample :
  let sched := [EvEnter; EvTick; EvRecv; EvLeave] in
  let x := snd (Activate oneStreamer (failsAt 0) goodWriter sched) in
  snd (failsAt 0 0%nat) = Some (errNew "boom") /\
  returned x = Some (Some (errWrap (errNew "boom") producerMsg)) /\
  returned x <> Some (Some (errNew "boom")).
Proof.
  repeat split; try reflexivity. vm_compute. discriminate.
Qed.

(** C4, amended: when the check function returns an error, the producer
    sends a record with no payload and with that error wrapped in the
    context "can't get stream data", and never calls the check function
    again; a consumer waiting in its loop that receives the record returns
    the record's error, that is the wrapped one, unchanged. *)
Theorem C4_producer_failure_wrapped s f wr sched p u e :
  let s1 := fst (Activate s f wr sched) in
  let x := snd (Activate s f wr sched) in
  prod x = PSelect -> f (calls x) = (p, u, Some e) ->
  let x1 := snd (step s1 x EvTick) in
  prod x1 = PSend (mkResp None (Some (errWrap e producerMsg))) /\
  calls x1 = S (calls x) /\
  (forall more, calls (snd (run s1 x1 more)) = S (calls x)) /\
  (cons x = CLoop ->
   forall idle mid post, forallb quiet idle = true ->
     returned (snd (run s1 x1 (idle ++ EvRecv :: mid ++ EvLeave :: post)))
     = Some (Some (errWrap e producerMsg))).
Proof.
  intros s1 x Hp Hf x1.
  destruct (Activate_fn_w s f wr sched) as [Hfn _]. fold x in Hfn.
  assert (Hx1 : x1 = setProd x (S (calls x))
                       (PSend (mkResp None (Some (errWrap e producerMsg))))).
  { unfold x1, step. rewrite Hp. unfold eventsCh_tick. simpl.
    rewrite Hfn, Hf. now destruct u. }
  assert (Hp1 : prod x1 = PSend (mkResp None (Some (errWrap e producerMsg))))
    by (rewrite Hx1; reflexivity).
  assert (Hc1 : calls x1 = S (calls x)) by (rewrite Hx1; reflexivity).
  assert (Hst : stopped x1) by (right; eauto).
  repeat split; [exact Hp1|exact Hc1| |].
  - intros more. destruct (run_stopped s1 x1 more Hst) as (_ & -> & _). exact Hc1.
  - intros Hc idle mid post Hq.
    assert (Hc' : cons x1 = CLoop) by (rewrite Hx1; exact Hc).
    destruct (recv_after_idle s1 x1 idle _ Hq Hc' Hp1) as (Hrun & Hp' & _).
    assert (Hex : exitOf (snd (run s1 x1 (idle ++ [EvRecv])))
                  = Some (ByRespErr, Some (errWrap e producerMsg))).
    { rewrite Hrun. unfold exitOf, Activate_recv. simpl. rewrite Hp'. reflexivity. }
    destruct (run_exit_return s1 x1 (idle ++ [EvRecv]) mid post _ _ Hex) as [R _].
    rewrite <- app_assoc in R. exact R.
Qed.

Lemma C4_witness :
  let x := snd (Activate oneStreamer (failsAt 1) goodWriter [EvEnter; EvTick; EvRecv]) in
  let s1 := fst (Activate oneStreamer (failsAt 1) goodWriter [EvEnter; EvTick; EvRecv]) in
  prod x = PSelect /\
  failsAt 1 (calls x) = (None, false, Some (errNew "boom")) /\
  returned (snd (run s1 (snd (step s1 x EvTick))
                     ([EvCancel] ++ EvRecv :: [] ++ EvLeave :: [])))
  = Some (Some (errWrap (errNew "boom") producerMsg)).
Proof.
  intros x s1. split; [reflexivity|]. split; [reflexivity|].
  destruct (C4_producer_failure_wrapped oneStreamer (failsAt 1) goodWriter
              [EvEnter; EvTick; EvRecv] None false (errNew "boom")
              eq_refl eq_refl) as (_ & _ & _ & H).
  exact (H eq_refl [EvCancel] [] [] eq_refl).
Defined.

(** ** The sink *)

(** C7: a consumer waiting in its loop that receives a record without an
    error writes the payload; if the write succeeds it flushes exactly when
    the sink is a flusher, and goes on; if the write fails it does nothing
    more to the sink and [Activate] returns the sink's error wrapped in the
    context "send to stream failed", which no producer-side failure
    carries. *)
Theorem C7_write_then_flush s f wr sched r :
  let s1 := fst (Activate s f wr sched) in
  let x := snd (Activate s f wr sched) in
  cons x = CLoop -> prod x = PSend r -> err r = None ->
  forall idle, forallb quiet idle = true ->
  match Write wr (ops x) (data r) with
  | None =>
      let y := snd (run s1 x (idle ++ [EvRecv])) in
      ops y = ops x ++ OpWrite (data r) None
                         :: (if isFlusher wr then [OpFlush] else []) /\
      cons y = CLoop
  | Some e =>
      forall mid post,
        let y := snd (run s1 x (idle ++ EvRecv :: mid ++ EvLeave :: post)) in
        returned y = Some (Some (errWrap e sinkMsg)) /\
        ops y = ops x ++ [OpWrite (data r) (Some e)] /\
        forall e', errWrap e sinkMsg <> errWrap e' producerMsg
  end.
Proof.
  intros s1 x Hc Hp He idle Hq.
  destruct (Activate_fn_w s f wr sched) as [_ Hw]. fold x in Hw.
  destruct (recv_after_idle s1 x idle r Hq Hc Hp) as (Hrun & Hp' & Ho & _).
  destruct (run_quiet s1 x idle Hq Hc) as (_ & Hc' & _).
  assert (Hw' : w (snd (run s1 x idle)) = wr).
  { rewrite <- Hw.
    apply (run_invariant (fun _ y => w y = w x)); [|reflexivity].
    intros s' y e' E. now destruct (step_same_fn_w s' y e') as [_ ->]. }
  destruct (Write wr (ops x) (data r)) as [e|] eqn:EW.
  - intros mid post y.
    assert (Hrecv : Activate_recv (snd (run s1 x idle)) =
                    setCons (addOps (setProd (snd (run s1 x idle))
                                             (calls (snd (run s1 x idle))) PSelect)
                                    [OpWrite (data r) (Some e)])
                            (CExit ByWriteErr (Some (errWrap e sinkMsg)))).
    { unfold Activate_recv. rewrite Hp', He, Hw', Ho, EW. reflexivity. }
    assert (Hex : exitOf (snd (run s1 x (idle ++ [EvRecv])))
                  = Some (ByWriteErr, Some (errWrap e sinkMsg))).
    { rewrite Hrun. simpl. rewrite Hrecv. reflexivity. }
    destruct (run_exit_return s1 x (idle ++ [EvRecv]) mid post _ _ Hex) as [R O].
    subst y. rewrite <- app_assoc in R, O. simpl in R, O.
    split; [exact R|]. split.
    + rewrite O, Hrun. simpl. rewrite Hrecv. simpl. now rewrite Ho.
    + intros e' E. injection E as _ E. vm_compute in E. discriminate.
  - intros y. subst y. rewrite Hrun. simpl.
    unfold Activate_recv. rewrite Hp', He, Hw', Ho, EW. simpl.
    rewrite Ho, Hc'. auto.
Qed.

Lemma C7_witness :
  let x := snd (Activate oneStreamer alwaysChanged brokenWriter [EvEnter; EvTick]) in
  let s1 := fst (Activate oneStreamer alwaysChanged brokenWriter [EvEnter; EvTick]) in
  cons x = CLoop /\ prod x = PSend (mkResp (payload 0) None) /\
  returned (snd (run s1 x ([EvCancel] ++ EvRecv :: [] ++ EvLeave :: [])))
  = Some (Some (errWrap (errNew "broken pipe") sinkMsg)).
Proof.
  intros x s1. split; [reflexivity|]. split; [reflexivity|].
  pose proof (C7_write_then_flush oneStreamer alwaysChanged brokenWriter
                [EvEnter; EvTick] (mkResp (payload 0) None)
                eq_refl eq_refl eq_refl [EvCancel] eq_refl) as H.
  exact (proj1 (H [] [])).
Defined.

(** ** Graceful terminations *)

(** C5: from a consumer waiting in its loop, the timer firing, the
    context being done, and the channel found closed each make [Activate]
    return nil. *)
Theorem C5_graceful_terminations_return_nil s f wr sched :
  let s1 := fst (Activate s f wr sched) in
  let x := snd (Activate s f wr sched) in
  cons x = CLoop ->
  forall idle mid post, forallb quiet idle = true ->
  returned (snd (run s1 x (idle ++ EvTimeout :: mid ++ EvLeave :: post))) = Some None /\
  (cancelled x = true ->
   returned (snd (run s1 x (idle ++ EvCtxDone :: mid ++ EvLeave :: post))) = Some None) /\
  (prod x = PClosed ->
   returned (snd (run s1 x (idle ++ EvRecv :: mid ++ EvLeave :: post))) = Some None).
Proof.
  intros s1 x Hc idle mid post Hq.
  destruct (run_quiet s1 x idle Hq Hc) as (Hs & Hc' & _ & Hcan & Hp).
  assert (G : forall ev c,
             exitOf (snd (step s1 (snd (run s1 x idle)) ev)) = Some (c, None) ->
             returned (snd (run s1 x (idle ++ ev :: mid ++ EvLeave :: post))) = Some None).
  { intros ev c Hex.
    assert (Hex' : exitOf (snd (run s1 x (idle ++ [ev]))) = Some (c, None)).
    { rewrite run_app, run_cons, Hs. exact Hex. }
    destruct (run_exit_return s1 x (idle ++ [ev]) mid post _ _ Hex') as [R _].
    rewrite <- app_assoc in R. exact R. }
  repeat split.
  - apply (G EvTimeout ByTimeout). unfold exitOf. simpl. now rewrite Hc'.
  - intros Hcn. apply (G EvCtxDone ByClient). unfold exitOf. simpl.
    rewrite Hc', (Hcan Hcn). reflexivity.
  - intros Hcl. apply (G EvRecv ByChanClosed). unfold exitOf. simpl.
    rewrite Hc'. unfold Activate_recv.
    destruct Hp as [-> _]; [congruence|]. rewrite Hcl. reflexivity.
Qed.

Lemma C5_witness :
  let x := snd (Activate oneStreamer alwaysChanged goodWriter
                         [EvEnter; EvCancel; EvProdDone]) in
  let s1 := fst (Activate oneStreamer alwaysChanged goodWriter
                          [EvEnter; EvCancel; EvProdDone]) in
  cons x = CLoop /\
  returned (snd (run s1 x ([EvTick] ++ EvTimeout :: [] ++ EvLeave :: []))) = Some None /\
  returned (snd (run s1 x ([EvTick] ++ EvCtxDone :: [] ++ EvLeave :: []))) = Some None /\
  returned (snd (run s1 x ([EvTick] ++ EvRecv :: [] ++ EvLeave :: []))) = Some None.
Proof.
  intros x s1. split; [reflexivity|].
  destruct (C5_graceful_terminations_return_nil oneStreamer alwaysChanged goodWriter
              [EvEnter; EvCancel; EvProdDone] eq_refl [EvTick] [] [] eq_refl)
    as (H1 & H2 & H3).
  split; [exact H1|]. split; [exact (H2 eq_refl)|exact (H3 eq_refl)].
Defined.

(** ** A check function that never reports a change *)

Lemma step_silent_inv M c0 s x e :
  silent (fn x) -> AddInt32 c0 1 <= M ->
  silent_inv M c0 s x ->
  silent_inv M c0 (fst (step s x e)) (snd (step s x e)).
Proof.
  unfold silent_inv, silent. destruct x as [f0 w0 cn n p k c o]. simpl.
  intros Hsil HM. pose proof (Hsil n) as [p0 Hp0]. revert Hp0.
  destruct e; step_cases; intros; simplify_eq/=;
    intuition (subst; try congruence; try lia).
Qed.

(** C8: for a check function that always reports [changed = false] and
    no error, on an accepted stream, under every schedule nothing is done
    to the sink, and a [return] that is reached is the one of the timeout,
    or, the context being cancelled, the one of the cancellation or of the
    channel the producer closed on that cancellation; its value is nil. *)
Theorem C8_silent_stream_writes_nothing s f wr sched :
  silent f -> AddInt32 (activeCount s) 1 <= MaxActive s ->
  let x := snd (Activate s f wr sched) in
  ops x = [] /\
  forall c r, exitOf x = Some (c, r) ->
    r = None /\
    (c = ByTimeout \/
     (cancelled x = true /\ (c = ByClient \/ c = ByChanClosed))).
Proof.
  intros Hsil HM x.
  assert (H : silent_inv (MaxActive s) (activeCount s)
                         (fst (Activate s f wr sched)) x /\ fn x = f).
  { unfold x, Activate.
    apply (run_invariant
             (fun s' y => silent_inv (MaxActive s) (activeCount s) s' y /\ fn y = f)).
    - intros s' y e [H1 H2]. split.
      + apply step_silent_inv; auto. now rewrite H2.
      + now destruct (step_same_fn_w s' y e) as [-> _].
    - unfold silent_inv, start; simpl; auto. }
  destruct H as [(_ & Hops & _ & Hc) _]. split; [exact Hops|].
  intros c r Hex. unfold exitOf in Hex.
  destruct (cons x) as [| |c' r'|c' r']; simplify_eq/=;
    destruct Hc as [-> Hc]; (split; [reflexivity|]); destruct c; tauto.
Qed.

Lemma C8_witness :
  silent neverChanged /\
  AddInt32 (activeCount oneStreamer) 1 <= MaxActive oneStreamer /\
  ops (snd (Activate oneStreamer neverChanged goodWriter
                     [EvEnter; EvTick; EvRecv; EvTick; EvTimeout; EvLeave])) = [].
Proof.
  assert (Hs : silent neverChanged) by (intros k; exists None; reflexivity).
  assert (Hm : AddInt32 (activeCount oneStreamer) 1 <= MaxActive oneStreamer)
    by (vm_compute; discriminate).
  split; [exact Hs|]. split; [exact Hm|].
  exact (proj1 (C8_silent_stream_writes_nothing oneStreamer neverChanged goodWriter
                  [EvEnter; EvTick; EvRecv; EvTick; EvTimeout; EvLeave] Hs Hm)).
Defined.

(** ** Order of delivery *)

Lemma writes_app l1 l2 : writes (l1 ++ l2) = writes l1 ++ writes l2.
Proof. unfold writes. apply flat_map_app. Qed.

Lemma producedOf_snoc l r :
  producedOf (l ++ [r]) =
  producedOf l ++ match r with (p, true, None) => [p] | _ => [] end.
Proof. unfold producedOf. rewrite flat_map_app. simpl. now rewrite app_nil_r. Qed.

Lemma step_delivery_inv s x e :
  delivery_inv x -> delivery_inv (snd (step s x e)).
Proof.
  unfold delivery_inv, pending. destruct x as [f0 w0 cn n p k c o].
  destruct e; step_cases; intros H; simplify_eq/=;
    rewrite ?producedOf_snoc, ?writes_app; simpl;
    repeat match goal with E : _ = (_, _, _) |- _ => rewrite E; clear E end;
    rewrite ?app_nil_r in *; try assumption.
  all: try (rewrite <- H; reflexivity).
  all: try (destruct r as [d [e'|]]; simplify_eq/=; rewrite <- H;
            rewrite ?app_nil_r, <- ?app_assoc; reflexivity).
Qed.

(** The check function reports a change at its first poll and the timer
    fires before the consumer takes the record: [Activate] returns with
    nothing written, though a result reported [changed = true]. *)
Lemma C6_counterexample :
  let sched := [EvEnter; EvTick; EvTimeout; EvLeave] in
  let x := snd (Activate oneStreamer alwaysChanged goodWriter sched) in
  returned x = Some None /\
  writes (ops x) = [] /\
  changedOf (polled (fn x) (calls x)) = [payload 0] /\
  writes (ops x) <> changedOf (polled (fn x) (calls x)).
Proof.
  repeat split; try reflexivity. vm_compute. discriminate.
Qed.

(** C6, amended: under every schedule, the payloads handed to the sink,
    in the order of the writes, followed by the payload of the record the
    producer is still blocked sending, if any, are the payloads of the
    results that reported [changed = true] and no error, in the order of
    the polls: nothing is reordered, doubled or skipped, and only the last
    payload produced can miss, when the stream ends before it is taken. *)
Theorem C6_delivery_in_production_order s f wr sched :
  let x := snd (Activate s f wr sched) in
  writes (ops x) ++ pending x = producedOf (polled f (calls x)) /\
  (length (pending x) <= 1)%nat.
Proof.
  intros x. split.
  - destruct (Activate_fn_w s f wr sched) as [Hf _]. fold x in Hf.
    rewrite <- Hf. change (delivery_inv x). unfold x, Activate.
    apply (run_invariant (fun _ y => delivery_inv y)).
    + intros; now apply step_delivery_inv.
    + reflexivity.
  - unfold pending. destruct (prod x) as [|[d [e|]]|]; simpl; lia.
Qed.

(** ** The counter *)

(** A step moves the counter exactly when the call passes its increment
    or its decrement. *)
Lemma step_moves s x e :
  let s' := fst (step s x e) in
  let x' := snd (step s x e) in
  (inflight x' = inflight x /\ rejected x' = rejected x /\
   accepted x' = accepted x /\ released x' = released x /\
   entered x' = entered x /\ count x' = count x /\
   activeCount s' = activeCount s) \/
  (entered x = false /\ entered x' = true /\
   inflight x = false /\ inflight x' = true /\
   released x = false /\ released x' = false /\
   rejected x = false /\ accepted x = false /\
   activeCount s' = AddInt32 (activeCount s) 1 /\ count x' = activeCount s' /\
   rejected x' = (MaxActive s <? activeCount s') /\
   accepted x' = negb (MaxActive s <? activeCount s')) \/
  (inflight x = true /\ inflight x' = false /\
   entered x = true /\ entered x' = true /\
   rejected x' = rejected x /\ accepted x' = accepted x /\
   released x = false /\ released x' = accepted x /\ count x' = count x /\
   activeCount s' = AddInt32 (activeCount s) (-1)).
Proof.
  unfold inflight, rejected, accepted, released, entered, rejected.
  session_cases x e; try (left; repeat split; reflexivity).
  all: try (right; left; repeat split; reflexivity).
  all: right; right; repeat split; reflexivity.
Qed.

Lemma countb_le p l : (countb p l <= length l)%nat.
Proof. induction l as [|x l IH]; simpl; [lia|]. destruct (p x); lia. Qed.

Lemma countb_insert p l i x y :
  l !! i = Some x ->
  (countb p (<[i:=y]> l) + (if p x then 1 else 0) =
   countb p l + (if p y then 1 else 0))%nat.
Proof.
  revert i. induction l as [|z l IH]; intros [|i] H; simpl in *; try discriminate.
  - injection H as ->. lia.
  - specialize (IH i H). lia.
Qed.

Lemma countb_accepted l :
  (countb entered l = countb accepted l + countb rejected l)%nat.
Proof.
  induction l as [|x l IH]; simpl; [reflexivity|].
  unfold accepted, entered, rejected in *.
  destruct (cons x) as [| |[] r|[] r]; simpl; lia.
Qed.

Lemma countb_inflight l :
  (countb accepted l <= countb inflight l + countb released l /\
   countb inflight l + countb released l <= countb entered l)%nat.
Proof.
  induction l as [|x l IH]; simpl; [lia|].
  unfold accepted, entered, rejected, inflight, released in *.
  destruct (cons x) as [| |[] r|[] r]; simpl; lia.
Qed.

Lemma exec_app S a b : exec S (a ++ b) = exec (exec S a) b.
Proof. revert S. induction a as [|ie a IH]; intros S; simpl; auto. Qed.

Lemma exec_invariant (P : System -> Prop) :
  (forall S ie, P S -> P (sys_step S ie)) ->
  forall sched S, P S -> P (exec S sched).
Proof.
  intros Hstep sched. induction sched as [|ie l IH]; intros S H; simpl; auto.
Qed.

Lemma AddInt32_small c d : int32 (c + d) -> AddInt32 c d = c + d.
Proof. apply wrap32_id. Qed.

Lemma sys_step_inv N n S ie :
  Z.of_nat n < 2 ^ 31 -> sys_inv N n S -> sys_inv N n (sys_step S ie).
Proof.
  intros Hn Hinv. pose proof Hinv as (HM & Hlen & Hcnt & Hall & Hcap).
  unfold sys_step. destruct ie as [i e]. simpl.
  destruct (sessions S !! i) as [x|] eqn:Ei; [|exact Hinv].
  destruct (step (streamer S) x e) as [s' x'] eqn:Es.
  pose proof (step_moves (streamer S) x e) as Hmv.
  pose proof (step_config (streamer S) x e) as (HM' & _ & _).
  pose proof (step_admission_inv (streamer S) x e) as Hadm.
  rewrite Es in Hmv, HM', Hadm. simpl in Hmv, HM', Hadm.
  pose proof (countb_insert inflight _ i x x' Ei) as Ci.
  pose proof (countb_insert rejected _ i x x' Ei) as Cr.
  pose proof (countb_insert accepted _ i x x' Ei) as Ca.
  pose proof (countb_insert released _ i x x' Ei) as Cl.
  pose proof (countb_le inflight (<[i:=x']> (sessions S))) as Li.
  rewrite length_insert, Hlen in Li.
  pose proof (countb_inflight (sessions S)) as Hb.
  pose proof (countb_accepted (sessions S)) as Hsum.
  pose proof (proj1 (Forall_lookup _ _) Hall i x Ei) as [Hax Hpx].
  rewrite HM in Hadm. specialize (Hadm Hax).
  unfold sys_inv. simpl. rewrite length_insert.
  assert (P2 : 2 ^ 31 = 2147483648) by reflexivity.
  destruct Hmv as [Hmv|[Hmv|Hmv]].
  - (* no move of the counter *)
    destruct Hmv as (Ei' & Er' & Ea' & El' & Ee' & Hc' & Hs').
    rewrite Ei' in Ci. rewrite Er' in Cr. rewrite Ea' in Ca. rewrite El' in Cl.
    repeat split; try congruence; try lia.
    apply Forall_insert; [exact Hall|]. split; [exact Hadm|].
    rewrite Ee', Hc'. exact Hpx.
  - (* the increment *)
    destruct Hmv as (Ee & Ee' & Ei0 & Ei' & El0 & El' & Er0 & Ea0 & Hs' & Hc' & Er' & Ea').
    rewrite Ei0, Ei' in Ci. rewrite Er0, Er' in Cr. rewrite Ea0, Ea' in Ca.
    rewrite El0, El' in Cl.
    assert (Hs'' : activeCount s' = activeCount (streamer S) + 1).
    { rewrite Hs'. apply AddInt32_small. unfold int32. lia. }
    repeat split; try congruence; try lia.
    + apply Forall_insert; [exact Hall|]. split; [exact Hadm|]. lia.
    + rewrite Hs'', HM in *.
      destruct (N <? activeCount (streamer S) + 1) eqn:Hlt; simpl in *; lia.
    + rewrite Hs'', HM in *.
      destruct (N <? activeCount (streamer S) + 1) eqn:Hlt; simpl in *; lia.
  - (* the decrement *)
    destruct Hmv as (Ei0 & Ei' & Ee & Ee' & Er' & Ea' & El0 & El' & Hc' & Hs').
    rewrite Ei0, Ei' in Ci. rewrite Er' in Cr. rewrite Ea' in Ca.
    rewrite El0, El' in Cl.
    assert (Hs'' : activeCount s' = activeCount (streamer S) - 1).
    { rewrite Hs'. replace (activeCount (streamer S) - 1)
        with (activeCount (streamer S) + -1) by lia.
      apply AddInt32_small. unfold int32. lia. }
    repeat split; try congruence; try lia.
    apply Forall_insert; [exact Hall|]. split; [exact Hadm|].
    rewrite Hc'. auto.
Qed.

Lemma fresh_sys_inv S :
  fresh S -> 0 <= MaxActive (streamer S) ->
  sys_inv (MaxActive (streamer S)) (length (sessions S)) S /\
  countb entered (sessions S) = 0%nat.
Proof.
  intros [Hc Hall] HN.
  assert (Hz : forall p, (forall x, cons x = CStart -> p x = false) ->
                         countb p (sessions S) = 0%nat).
  { intros p Hp. induction Hall as [|x l [Hx _] _ IH]; simpl; [reflexivity|].
    now rewrite (Hp x Hx), IH. }
  assert (Hi : countb inflight (sessions S) = 0%nat)
    by (apply Hz; intros x E; unfold inflight; now rewrite E).
  assert (Hent : countb entered (sessions S) = 0%nat)
    by (apply Hz; intros x E; unfold entered; now rewrite E).
  pose proof (countb_accepted (sessions S)) as Hsum.
  split; [|exact Hent].
  unfold sys_inv. split; [reflexivity|]. split; [reflexivity|].
  split; [rewrite Hi; exact Hc|]. split; [|lia].
  eapply Forall_impl; [exact Hall|]. intros x [Hx Ho]. split.
  - unfold admission_inv. now rewrite Hx.
  - unfold entered. rewrite Hx. discriminate.
Qed.

Lemma exec_sys_inv N n S sched :
  Z.of_nat n < 2 ^ 31 -> sys_inv N n S -> sys_inv N n (exec S sched).
Proof.
  intros Hn. revert S. apply exec_invariant.
  intros S ie. now apply sys_step_inv.
Qed.

(** What every step of a stream keeps, the stream keeps while the
    system runs. *)
Lemma exec_session (P : Session -> Prop) :
  (forall s x e, P x -> P (snd (step s x e))) ->
  forall sched S i y, sessions S !! i = Some y -> P y ->
  exists x, sessions (exec S sched) !! i = Some x /\ P x.
Proof.
  intros Hstep sched. induction sched as [|[j e] l IH]; intros S i y Hi Hy; simpl.
  - eauto.
  - unfold sys_step. simpl.
    destruct (sessions S !! j) as [z|] eqn:Ej; [|eauto].
    destruct (step (streamer S) z e) as [s' z'] eqn:Es.
    destruct (decide (j = i)) as [->|Hne].
    + apply (IH _ i z').
      * simpl. apply list_lookup_insert_eq. now apply lookup_lt_Some in Hi.
      * assert (z = y) by congruence. subst z.
        change z' with (snd (s', z')). rewrite <- Es. now apply Hstep.
    + apply (IH _ i y); [|exact Hy]. simpl.
      now rewrite list_lookup_insert_ne.
Qed.

Lemma step_accepted s x e :
  accepted x = true -> accepted (snd (step s x e)) = true.
Proof.
  intros H. destruct (step_moves s x e) as [Hm|[Hm|Hm]]; simpl in Hm.
  - destruct Hm as (_ & _ & -> & _). exact H.
  - destruct Hm as (_ & _ & _ & _ & _ & _ & _ & Ha & _). congruence.
  - destruct Hm as (_ & _ & _ & _ & _ & -> & _). exact H.
Qed.

(** C1: on a streamer with [MaxActive = N] whose counter starts at zero,
    with [N + k] calls of [Activate] under any interleaving: a call at
    line 36 adds one to the counter and is rejected with the
    too-many-streams error exactly when the new count exceeds [N], else it
    enters the loop; a rejected call has never been in the loop and has
    not touched its sink; with [N = 0] every call that has passed line 36
    is rejected; and once all [N + k] calls have passed line 36 while no
    accepted stream has ended, exactly [k] of them are rejected. *)
Theorem C1_admission_control (N k : nat) (S : System) (sched : list (nat * Event)) :
  fresh S ->
  MaxActive (streamer S) = Z.of_nat N ->
  length (sessions S) = (N + k)%nat ->
  Z.of_nat (N + k) < 2 ^ 31 ->
  let S' := exec S sched in
  (forall i x, sessions S' !! i = Some x -> cons x = CStart ->
     let s2 := fst (step (streamer S') x EvEnter) in
     let x2 := snd (step (streamer S') x EvEnter) in
     activeCount s2 = AddInt32 (activeCount (streamer S')) 1 /\
     count x2 = activeCount s2 /\
     cons x2 = if Z.of_nat N <? activeCount s2
               then CExit ByTooMany (Some tooManyStreams) else CLoop) /\
  (forall i x, sessions S' !! i = Some x -> entered x = true ->
     (rejected x = true <-> Z.of_nat N < count x) /\
     (rejected x = true ->
      exitOf x = Some (ByTooMany, Some tooManyStreams) /\ ops x = []) /\
     (N = 0%nat -> rejected x = true)) /\
  (forall pre post i x y,
     sched = pre ++ post ->
     sessions (exec S pre) !! i = Some y -> sessions S' !! i = Some x ->
     rejected x = true -> cons y <> CLoop) /\
  (countb entered (sessions S') = (N + k)%nat ->
   countb released (sessions S') = 0%nat ->
   countb rejected (sessions S') = k).
Proof.
  intros Hfr HM Hlen Hn S'.
  destruct (fresh_sys_inv S Hfr ltac:(lia)) as [Hinv0 _].
  rewrite HM, Hlen in Hinv0.
  pose proof (exec_sys_inv _ _ S sched Hn Hinv0) as Hinv. fold S' in Hinv.
  destruct Hinv as (HM' & Hlen' & Hcnt & Hall & Hcap).
  split; [|split; [|split]].
  - intros i x Hi Hc s2 x2. unfold s2, x2, step. rewrite Hc. simpl.
    rewrite HM'. auto.
  - intros i x Hi He.
    pose proof (proj1 (Forall_lookup _ _) Hall i x Hi) as [Ha Hp].
    specialize (Hp He). revert He Ha Hp.
    unfold rejected, entered, exitOf, admission_inv.
    destruct (cons x) as [| |[] r|[] r]; intros He Ha Hp; try discriminate;
      repeat split; intros; subst; try discriminate; try tauto; try lia;
      try (destruct Ha as (-> & _); reflexivity).
  - intros pre post i x y Hs Hy Hx Hr Hc.
    assert (Hady : accepted y = true)
      by (unfold accepted, entered, rejected; now rewrite Hc).
    destruct (exec_session (fun z => accepted z = true) step_accepted post
                           (exec S pre) i y Hy Hady) as (x' & Hx' & Hadx).
    rewrite <- exec_app, <- Hs in Hx'. fold S' in Hx'.
    assert (x' = x) by congruence. subst x'.
    unfold accepted in Hadx. rewrite Hr in Hadx.
    rewrite andb_false_r in Hadx. discriminate.
  - intros Hent Hrel.
    pose proof (countb_accepted (sessions S')) as Hsum.
    specialize (Hcap Hrel). lia.
Qed.

Lemma C1_witness :
  fresh threeCalls /\
  MaxActive (streamer threeCalls) = Z.of_nat 1 /\
  length (sessions threeCalls) = (1 + 2)%nat /\
  Z.of_nat (1 + 2) < 2 ^ 31 /\
  countb rejected
         (sessions (exec threeCalls [(0, EvEnter); (1, EvEnter); (2, EvEnter)]%nat))
  = 2%nat.
Proof.
  assert (Hf : fresh threeCalls)
    by (split; [reflexivity|repeat constructor]).
  assert (Hn : Z.of_nat (1 + 2) < 2 ^ 31) by (vm_compute; reflexivity).
  split; [exact Hf|]. split; [reflexivity|]. split; [reflexivity|].
  split; [exact Hn|].
  destruct (C1_admission_control 1 2 threeCalls
              [(0, EvEnter); (1, EvEnter); (2, EvEnter)]%nat
              Hf eq_refl eq_refl Hn) as (_ & _ & _ & H).
  apply H; reflexivity.
Defined.

Lemma sys_step_counter S ie :
  int32 (activeCount (streamer S)) ->
  activeCount (streamer (sys_step S ie)) =
  wrap32 (activeCount (streamer S)
          + Z.of_nat (countb inflight (sessions (sys_step S ie)))
          - Z.of_nat (countb inflight (sessions S))).
Proof.
  intros Hi. unfold sys_step. destruct ie as [i e]. simpl.
  destruct (sessions S !! i) as [x|] eqn:Ei.
  2: { rewrite wrap32_id; [lia|]. now replace (_ + _ - _) with (activeCount (streamer S)) by lia. }
  destruct (step (streamer S) x e) as [s' x'] eqn:Es. simpl.
  pose proof (step_moves (streamer S) x e) as Hmv. rewrite Es in Hmv. simpl in Hmv.
  pose proof (countb_insert inflight _ i x x' Ei) as Ci.
  destruct Hmv as [Hmv|[Hmv|Hmv]].
  - destruct Hmv as (Ei' & _ & _ & _ & _ & _ & ->). rewrite Ei' in Ci.
    rewrite wrap32_id; [lia|].
    now replace (_ + _ - _) with (activeCount (streamer S)) by lia.
  - destruct Hmv as (_ & _ & Ei0 & Ei' & _ & _ & _ & _ & -> & _).
    rewrite Ei0, Ei' in Ci. unfold AddInt32. f_equal. lia.
  - destruct Hmv as (Ei0 & Ei' & _ & _ & _ & _ & _ & _ & _ & ->).
    rewrite Ei0, Ei' in Ci. unfold AddInt32. f_equal. lia.
Qed.

Lemma exec_counter S sched :
  int32 (activeCount (streamer S)) ->
  activeCount (streamer (exec S sched)) =
  wrap32 (activeCount (streamer S)
          + Z.of_nat (countb inflight (sessions (exec S sched)))
          - Z.of_nat (countb inflight (sessions S))).
Proof.
  intros Hi.
  apply (exec_invariant
           (fun S' => activeCount (streamer S') =
                      wrap32 (activeCount (streamer S)
                              + Z.of_nat (countb inflight (sessions S'))
                              - Z.of_nat (countb inflight (sessions S))))).
  - intros S' ie H.
    rewrite sys_step_counter by (rewrite H; apply wrap32_int32).
    rewrite H, <- Z.add_sub_assoc, wrap32_shift. f_equal. lia.
  - rewrite wrap32_id; [lia|].
    now replace (_ + _ - _) with (activeCount (streamer S)) by lia.
Qed.

Lemma step_counter_inv c s x e :
  int32 c -> counter_inv c s x ->
  counter_inv c (fst (step s x e)) (snd (step s x e)).
Proof.
  unfold counter_inv. intros Hc.
  session_cases x e; intros H; simpl in *; try congruence.
  rewrite H. now apply AddInt32_undo.
Qed.

(** C2: the counter of a streamer is, up to the wrap-around of [int32],
    its value at the start plus the calls of [Activate] that are now
    between their increment and their decrement less those that were at
    the start; a call at any of its six [return] statements does the
    deferred decrement and then has returned, after which it never moves
    the counter again; and a call that has returned, left alone with the
    counter, leaves it as it found it. *)
Theorem C2_counter_net_zero S sched s f wr sched1 :
  int32 (activeCount (streamer S)) -> int32 (activeCount s) ->
  activeCount (streamer (exec S sched)) =
    wrap32 (activeCount (streamer S)
            + Z.of_nat (countb inflight (sessions (exec S sched)))
            - Z.of_nat (countb inflight (sessions S))) /\
  (forall s' x c r, cons x = CExit c r ->
     activeCount (fst (step s' x EvLeave)) = AddInt32 (activeCount s') (-1) /\
     cons (snd (step s' x EvLeave)) = CRet c r) /\
  (forall s' x c r e, cons x = CRet c r ->
     fst (step s' x e) = s' /\ cons (snd (step s' x e)) = CRet c r) /\
  (forall r, returned (snd (Activate s f wr sched1)) = Some r ->
     activeCount (fst (Activate s f wr sched1)) = activeCount s).
Proof.
  intros HS Hs. split; [now apply exec_counter|]. split; [|split].
  - intros s' x c r Hx. unfold step. rewrite Hx. auto.
  - intros s' x c r e Hx. split; [|now apply step_ret].
    revert Hx. session_cases x e; intros; simplify_eq/=; reflexivity.
  - intros r Hr.
    assert (H : counter_inv (activeCount s) (fst (Activate s f wr sched1))
                            (snd (Activate s f wr sched1))).
    { unfold Activate. apply (run_invariant (counter_inv (activeCount s))).
      - intros; now apply step_counter_inv.
      - reflexivity. }
    unfold counter_inv in H. unfold returned in Hr.
    destruct (cons (snd (Activate s f wr sched1))); try discriminate. exact H.
Qed.

Lemma C2_witness :
  int32 (activeCount (streamer threeCalls)) /\ int32 (activeCount oneStreamer) /\
  activeCount (fst (Activate oneStreamer (failsAt 1) brokenWriter
                             [EvEnter; EvTick; EvRecv; EvLeave]))
  = activeCount oneStreamer.
Proof.
  assert (H0 : int32 0) by (unfold int32; lia).
  split; [exact H0|]. split; [exact H0|].
  destruct (C2_counter_net_zero threeCalls [] oneStreamer (failsAt 1) brokenWriter
              [EvEnter; EvTick; EvRecv; EvLeave] H0 H0) as (_ & _ & _ & H).
  apply (H (Some (errWrap (errNew "broken pipe") sinkMsg))). reflexivity.
Defined.

(** ** The timeout *)

(** Updates flow every 2 and the timeout is 3: after four polls the
    stream is still open at time 8, and has delivered records at times 4,
    6 and 8, none of them before the end of the first 3 units. *)
Lemma C3_counterexample :
  let t := timedActivate tightStreamer alwaysChanged goodWriter 4 in
  TimeOut tightStreamer = 3 /\
  deliveries (trace t) = [2; 4; 6; 8] /\
  cons (tsess t) = CLoop /\
  ~ Forall (fun d => d < TimeOut tightStreamer) (deliveries (trace t)).
Proof.
  repeat split; try reflexivity.
  intros H. vm_compute in H.
  apply Forall_cons_1 in H as [_ H]. apply Forall_cons_1 in H as [H _].
  vm_compute in H. discriminate.
Qed.

Lemma deliveries_app a b : deliveries (a ++ b) = deliveries a ++ deliveries b.
Proof. unfold deliveries. apply flat_map_app. Qed.

Lemma last_cons (a d : Z) l : List.last (a :: l) d = List.last l a.
Proof.
  revert a d. induction l as [|b l IH]; intros a d; [reflexivity|].
  change (List.last (a :: b :: l) d) with (List.last (b :: l) d).
  now rewrite !IH.
Qed.

Lemma gaps_below_snoc T prev l d :
  gaps_below T prev l -> List.last l prev < d < List.last l prev + T ->
  gaps_below T prev (l ++ [d]).
Proof.
  revert prev. induction l as [|a l IH]; intros prev H Hd.
  - simpl in *. tauto.
  - destruct H as [Ha Hl]. split; [exact Ha|].
    apply IH; [exact Hl|]. now rewrite last_cons in Hd.
Qed.

Lemma timed_step_inv s t :
  0 < Refresh s -> timed_inv s t -> timed_inv s (timed_step s t).
Proof.
  intros HR. unfold timed_inv, timed_step.
  destruct t as [[f0 w0 cn n p k c o] nt ws tr]. simpl.
  destruct c; try (intros H; exact H).
  intros (Hg & -> & Hws & Hlt).
  destruct (nt <? ws + TimeOut s) eqn:Hdue.
  - apply Z.ltb_lt in Hdue.
    assert (Hsnoc : gaps_below (TimeOut s) 0 (deliveries tr ++ [nt]))
      by (apply gaps_below_snoc; [exact Hg|]; rewrite <- Hws; lia).
    unfold step, eventsCh_tick, Activate_recv. simpl.
    destruct (f0 n) as [[d u] [e|]]; [|destruct u]; simpl;
      try destruct u; simpl; try destruct (Write w0 o d); simpl;
      rewrite deliveries_app; simpl; rewrite ?app_nil_r, ?last_last;
      repeat split; auto; lia.
  - apply Z.ltb_ge in Hdue. simpl. rewrite deliveries_app. simpl.
    rewrite app_nil_r. repeat split; auto.
    exists tr. now rewrite Hws.
Qed.

Lemma timed_run_inv s t n :
  0 < Refresh s -> timed_inv s t -> timed_inv s (timed_run s t n).
Proof.
  intros HR. revert t. induction n as [|n IH]; intros t H; simpl; [exact H|].
  apply IH. now apply timed_step_inv.
Qed.

Lemma timed_run_add s t n m :
  timed_run s t (n + m) = timed_run s (timed_run s t n) m.
Proof. revert t. induction n as [|n IH]; intros t; simpl; auto. Qed.

Lemma timed_step_fn s t : fn (tsess (timed_step s t)) = fn (tsess t).
Proof.
  unfold timed_step. destruct t as [[f0 w0 cn n p k c o] nt ws tr]. simpl.
  destruct c; try reflexivity.
  destruct (nt <? ws + TimeOut s); [|reflexivity].
  unfold step, eventsCh_tick, Activate_recv. simpl.
  destruct p; simpl; repeat (goal_match; simpl); reflexivity.
Qed.

Lemma timed_run_fn s t n : fn (tsess (timed_run s t n)) = fn (tsess t).
Proof.
  revert t. induction n as [|n IH]; intros t; simpl; [reflexivity|].
  rewrite IH. apply timed_step_fn.
Qed.

(** With no change reported from now on, the timer of the current wait
    fires. *)
Lemma silent_times_out s t bound :
  0 < Refresh s ->
  cons (tsess t) = CLoop -> prod (tsess t) = PSelect ->
  (forall k, (calls (tsess t) <= k)%nat ->
             exists p, fn (tsess t) k = (p, false, None)) ->
  (Z.to_nat (waitStart t + TimeOut s - nextTick t) <= bound)%nat ->
  exists m tr,
    cons (tsess (timed_run s t m)) = CExit ByTimeout None /\
    trace (timed_run s t m) = tr ++ [(waitStart t + TimeOut s, EvTimeout)] /\
    deliveries (trace (timed_run s t m)) = deliveries (trace t).
Proof.
  intros HR. revert t. induction bound as [|b IH]; intros t Hc Hp Hsil Hb.
  - exists 1%nat, (trace t). simpl. unfold timed_step. rewrite Hc.
    assert (Hdue : (nextTick t <? waitStart t + TimeOut s) = false)
      by (apply Z.ltb_ge; lia).
    rewrite Hdue. simpl. rewrite Hc, deliveries_app. simpl.
    rewrite app_nil_r. auto.
  - destruct (nextTick t <? waitStart t + TimeOut s) eqn:Hdue.
    + apply Z.ltb_lt in Hdue.
      destruct (Hsil (calls (tsess t)) ltac:(lia)) as [p0 Hf].
      assert (Hst : timed_step s t =
                    mkTimed (setProd (tsess t) (S (calls (tsess t))) PSelect)
                            (nextTick t + Refresh s) (waitStart t)
                            (trace t ++ [(nextTick t, EvTick)])).
      { unfold timed_step. rewrite Hc.
        assert (E : (nextTick t <? waitStart t + TimeOut s) = true)
          by (apply Z.ltb_lt; lia).
        rewrite E. unfold step. rewrite Hp. unfold eventsCh_tick.
        rewrite Hf. reflexivity. }
      destruct (IH (timed_step s t)) as (m & tr & H1 & H2 & H3).
      * rewrite Hst. exact Hc.
      * rewrite Hst. reflexivity.
      * rewrite Hst. simpl. intros k Hk. apply Hsil. lia.
      * rewrite Hst. simpl. lia.
      * exists (S m), tr. simpl. rewrite H3, H1, H2, Hst. simpl.
        rewrite deliveries_app. simpl. rewrite app_nil_r. auto.
    + exists 1%nat, (trace t). simpl. unfold timed_step. rewrite Hc, Hdue.
      simpl. rewrite Hc, deliveries_app. simpl. rewrite app_nil_r. auto.
Qed.

Lemma timedActivate_eq s f wr n :
  timedActivate s f wr n =
  timed_run (fst (step s (start f wr) EvEnter))
            (mkTimed (snd (step s (start f wr) EvEnter)) (Refresh s) 0 [(0, EvEnter)])
            n.
Proof. reflexivity. Qed.

Lemma timedActivate_inv s f wr n :
  0 < Refresh s ->
  timed_inv s (timedActivate s f wr n) /\
  fn (tsess (timedActivate s f wr n)) = f.
Proof.
  intros HR. rewrite timedActivate_eq. split.
  - assert (H : timed_inv (fst (step s (start f wr) EvEnter))
                  (timed_run (fst (step s (start f wr) EvEnter))
                     (mkTimed (snd (step s (start f wr) EvEnter)) (Refresh s) 0
                              [(0, EvEnter)]) n)).
    { apply timed_run_inv; [exact HR|].
      unfold timed_inv. simpl. split; [exact I|].
      destruct (MaxActive s <? AddInt32 (activeCount s) 1); simpl; auto. }
    exact H.
  - rewrite timed_run_fn. reflexivity.
Qed.

Lemma busy_step s f wr t :
  Refresh s < TimeOut s -> busy f -> sound wr ->
  busy_inv s f wr t ->
  busy_inv s f wr (timed_step s t) /\
  deliveries (trace (timed_step s t)) = deliveries (trace t) ++ [nextTick t].
Proof.
  intros HRT Hb Hw. unfold busy_inv, timed_step.
  destruct t as [[f0 w0 cn n p k c o] nt ws tr]. simpl.
  intros (-> & -> & -> & -> & ->).
  assert (Hdue : (ws + Refresh s <? ws + TimeOut s) = true) by (apply Z.ltb_lt; lia).
  rewrite Hdue. unfold step, eventsCh_tick, Activate_recv. simpl.
  destruct (Hb n) as [p0 ->]. simpl. rewrite Hw. simpl.
  rewrite deliveries_app. simpl. repeat split; reflexivity.
Qed.

Lemma busy_run s f wr t n :
  Refresh s < TimeOut s -> busy f -> sound wr ->
  busy_inv s f wr t ->
  busy_inv s f wr (timed_run s t n) /\
  length (deliveries (trace (timed_run s t n))) =
  (length (deliveries (trace t)) + n)%nat.
Proof.
  intros HRT Hb Hw. revert t. induction n as [|n IH]; intros t H; simpl.
  - split; [exact H|lia].
  - destruct (busy_step s f wr t HRT Hb Hw H) as [H1 H2].
    destruct (IH _ H1) as [G1 G2]. split; [exact G1|].
    rewrite G2, H2, length_app. simpl. lia.
Qed.

(** C3, amended: the timeout is one of inactivity.  The timer is set anew
    whenever the consumer goes back to its [select], so with no other
    stream and nobody cancelling: every record is received less than
    [TimeOut] after the one before it (the first one, after the start of
    the stream); a stream that ends by the timeout does so without error,
    [TimeOut] after the last record was received; a stream whose check
    function reports no change from now on does end so; and an accepted
    stream with a change at every poll and a ticker faster than the
    timeout is never ended by it. *)
Theorem C3_timeout_since_last_record s f wr n :
  0 < Refresh s -> 0 < TimeOut s ->
  let t := timedActivate s f wr n in
  gaps_below (TimeOut s) 0 (deliveries (trace t)) /\
  (forall r, cons (tsess t) = CExit ByTimeout r ->
     r = None /\
     exists tr, trace t = tr ++ [(List.last (deliveries tr) 0 + TimeOut s, EvTimeout)]) /\
  (cons (tsess t) = CLoop ->
   (forall k, (calls (tsess t) <= k)%nat -> exists p, f k = (p, false, None)) ->
   exists m tr,
     let t' := timedActivate s f wr (n + m) in
     cons (tsess t') = CExit ByTimeout None /\
     trace t' = tr ++ [(List.last (deliveries (trace t)) 0 + TimeOut s, EvTimeout)] /\
     deliveries (trace t') = deliveries (trace t)) /\
  (Refresh s < TimeOut s -> AddInt32 (activeCount s) 1 <= MaxActive s ->
   busy f -> sound wr ->
   cons (tsess t) = CLoop /\ length (deliveries (trace t)) = n).
Proof.
  intros HR HT t.
  destruct (timedActivate_inv s f wr n HR) as [[Hg Hc] Hf]. fold t in Hg, Hc, Hf.
  split; [exact Hg|]. split; [|split].
  3: { intros HRT HM Hb Hw. unfold t. rewrite timedActivate_eq.
       destruct (busy_run (fst (step s (start f wr) EvEnter)) f wr
                   (mkTimed (snd (step s (start f wr) EvEnter)) (Refresh s) 0
                            [(0, EvEnter)]) n HRT Hb Hw) as [(G & _) L].
       - unfold busy_inv. simpl.
         assert (E : (MaxActive s <? AddInt32 (activeCount s) 1) = false)
           by (apply Z.ltb_ge; lia).
         rewrite E. auto.
       - split; [exact G|exact L]. }
  - intros r Hr. rewrite Hr in Hc. exact Hc.
  - intros Hl Hsil. rewrite Hl in Hc. destruct Hc as (Hp & Hws & Hlt).
    destruct (silent_times_out (fst (step s (start f wr) EvEnter)) t
                (Z.to_nat (waitStart t + TimeOut s - nextTick t)) HR Hl Hp)
      as (m & tr & H1 & H2 & H3).
    + intros k Hk. rewrite Hf. now apply Hsil.
    + simpl. lia.
    + exists m, tr. cbv zeta. rewrite timedActivate_eq, timed_run_add.
      rewrite <- timedActivate_eq. fold t.
      rewrite H3, H1, H2, <- Hws. auto.
Qed.

Lemma C3_witness :
  0 < Refresh tightStreamer /\ 0 < TimeOut tightStreamer /\
  gaps_below (TimeOut tightStreamer) 0
             (deliveries (trace (timedActivate tightStreamer (failsAt 3) goodWriter 5))).
Proof.
  assert (HR : 0 < Refresh tightStreamer) by reflexivity.
  assert (HT : 0 < TimeOut tightStreamer) by reflexivity.
  split; [exact HR|]. split; [exact HT|].
  exact (proj1 (C3_timeout_since_last_record tightStreamer (failsAt 3) goodWriter 5 HR HT)).
Defined.

(** ** The streamer's own scenarios *)

(** Twenty calls at once against [MaxActive = 10]: ten are rejected. *)
Example twenty_calls_ten_rejected :
  countb rejected (sessions (exec twentyCalls (allOf EvEnter 20))) = 10%nat.
Proof. vm_compute. reflexivity. Qed.

(** When they have all ended, the counter is back at zero and the next
    call is accepted. *)
Example twenty_calls_then_one_more :
  let S := exec twentyCalls (allOf EvEnter 20 ++ allOf EvTimeout 20 ++ allOf EvLeave 20) in
  activeCount (streamer S) = 0 /\
  cons (snd (step (streamer S) (start neverChanged goodWriter) EvEnter)) = CLoop.
Proof. vm_compute. split; reflexivity. Qed.

(** * Further properties of the streamer *)

(** ** The slots *)

Lemma countb_streaming l : (countb streaming l <= countb inflight l)%nat.
Proof.
  induction l as [|x l IH]; simpl; [lia|].
  destruct (streaming x) eqn:E, (inflight x) eqn:E2; try lia.
  unfold streaming in E. rewrite E2 in E. discriminate.
Qed.

Lemma sys_step_slots N n S ie :
  Z.of_nat n < 2 ^ 31 -> slots_inv N n S -> slots_inv N n (sys_step S ie).
Proof.
  intros Hn Hinv. pose proof Hinv as (HM & Hlen & Hcnt & Hcap).
  unfold sys_step. destruct ie as [i e]. simpl.
  destruct (sessions S !! i) as [x|] eqn:Ei; [|exact Hinv].
  destruct (step (streamer S) x e) as [s' x'] eqn:Es.
  pose proof (step_moves (streamer S) x e) as Hmv.
  pose proof (step_config (streamer S) x e) as (HM' & _ & _).
  rewrite Es in Hmv, HM'. simpl in Hmv, HM'.
  pose proof (countb_insert inflight _ i x x' Ei) as Ci.
  pose proof (countb_insert streaming _ i x x' Ei) as Cs.
  pose proof (countb_le inflight (<[i:=x']> (sessions S))) as Li.
  rewrite length_insert, Hlen in Li.
  pose proof (countb_streaming (sessions S)) as Hb.
  assert (P2 : 2 ^ 31 = 2147483648) by reflexivity.
  unfold slots_inv, streaming in *. simpl. rewrite length_insert.
  destruct Hmv as [Hmv|[Hmv|Hmv]].
  - destruct Hmv as (Ei' & Er' & _ & _ & _ & _ & Hs').
    rewrite Ei' in Ci. rewrite Ei', Er' in Cs.
    repeat split; try congruence; lia.
  - destruct Hmv as (_ & _ & Ei0 & Ei' & _ & _ & Er0 & _ & Hs' & _ & Er' & _).
    rewrite Ei0, Ei' in Ci. rewrite Ei0, Ei', Er' in Cs. simpl in Cs.
    assert (Hs'' : activeCount s' = activeCount (streamer S) + 1).
    { rewrite Hs'. apply AddInt32_small. unfold int32. lia. }
    rewrite Hs'', HM in Cs.
    repeat split; try congruence; try lia.
    all: destruct (N <? activeCount (streamer S) + 1) eqn:Hlt; simpl in Cs; lia.
  - destruct Hmv as (Ei0 & Ei' & _ & _ & _ & _ & _ & _ & _ & Hs').
    rewrite Ei0, Ei' in Ci. rewrite Ei0, Ei' in Cs. simpl in Cs.
    assert (Hs'' : activeCount s' = activeCount (streamer S) - 1).
    { rewrite Hs'. replace (activeCount (streamer S) - 1)
        with (activeCount (streamer S) + -1) by lia.
      apply AddInt32_small. unfold int32. lia. }
    repeat split; try congruence; try lia.
    all: destruct (negb (rejected x)); lia.
Qed.

Lemma fresh_slots S :
  fresh S -> slots_inv (MaxActive (streamer S)) (length (sessions S)) S.
Proof.
  intros [Hc Hall].
  assert (Hi : countb inflight (sessions S) = 0%nat).
  { induction Hall as [|x l [Hx _] _ IH]; simpl; [reflexivity|].
    unfold inflight at 1. now rewrite Hx, IH. }
  pose proof (countb_streaming (sessions S)) as Hb.
  unfold slots_inv. repeat split; try lia.
Qed.

Lemma exec_slots S sched :
  fresh S -> Z.of_nat (length (sessions S)) < 2 ^ 31 ->
  slots_inv (MaxActive (streamer S)) (length (sessions S)) (exec S sched).
Proof.
  intros Hf Hn. apply (exec_invariant
    (slots_inv (MaxActive (streamer S)) (length (sessions S)))).
  - intros S' ie. now apply sys_step_slots.
  - now apply fresh_slots.
Qed.

(** X1: on a streamer whose counter starts at zero, under every
    interleaving of its calls, streams ending and slots being taken again
    included, the streams that are accepted and have not yet given their
    slot back are never more than [MaxActive] (none, if it is negative). *)
Theorem X1_never_more_than_MaxActive_streaming S sched :
  fresh S -> Z.of_nat (length (sessions S)) < 2 ^ 31 ->
  Z.of_nat (countb streaming (sessions (exec S sched)))
  <= Z.max (MaxActive (streamer S)) 0.
Proof.
  intros Hf Hn. now destruct (exec_slots S sched Hf Hn) as (_ & _ & _ & H).
Qed.

(** X2: a call that comes to line 36 is accepted exactly when the calls
    then between their increment and their decrement, the rejected ones
    that have not yet run their deferred decrement among them, are fewer
    than [MaxActive]; otherwise it is rejected. *)
Theorem X2_accepted_iff_slot_free S sched i x :
  fresh S -> Z.of_nat (length (sessions S)) < 2 ^ 31 ->
  sessions (exec S sched) !! i = Some x -> cons x = CStart ->
  let x' := snd (step (streamer (exec S sched)) x EvEnter) in
  let busyCalls := Z.of_nat (countb inflight (sessions (exec S sched))) in
  (cons x' = CLoop <-> busyCalls < MaxActive (streamer S)) /\
  (cons x' = CExit ByTooMany (Some tooManyStreams)
   <-> MaxActive (streamer S) <= busyCalls).
Proof.
  intros Hf Hn Hi Hc x' busyCalls.
  destruct (exec_slots S sched Hf Hn) as (HM & Hlen & Hcnt & _).
  pose proof (countb_insert inflight _ i x (setCons x CLoop) Hi) as Ci.
  pose proof (countb_le inflight (<[i:=setCons x CLoop]> (sessions (exec S sched)))) as Li.
  rewrite length_insert, Hlen in Li.
  assert (E0 : inflight x = false) by (unfold inflight; now rewrite Hc).
  assert (E1 : inflight (setCons x CLoop) = true) by reflexivity.
  rewrite E0, E1 in Ci. subst busyCalls.
  assert (P2 : 2 ^ 31 = 2147483648) by reflexivity.
  assert (Hadd : AddInt32 (activeCount (streamer (exec S sched))) 1
                 = Z.of_nat (countb inflight (sessions (exec S sched))) + 1).
  { rewrite Hcnt. apply AddInt32_small. unfold int32. lia. }
  unfold x', step. rewrite Hc. unfold Activate_enter. simpl.
  rewrite Hadd, HM.
  destruct (MaxActive (streamer S)
            <? Z.of_nat (countb inflight (sessions (exec S sched))) + 1) eqn:Hlt.
  - apply Z.ltb_lt in Hlt. split; split; intros H; try discriminate; try lia; reflexivity.
  - apply Z.ltb_ge in Hlt. split; split; intros H; try discriminate; try lia; reflexivity.
Qed.

Lemma X1_witness :
  fresh threeCalls /\ Z.of_nat (length (sessions threeCalls)) < 2 ^ 31 /\
  Z.of_nat (countb streaming
              (sessions (exec threeCalls
                              [(1, EvEnter); (0, EvEnter); (1, EvTimeout);
                               (1, EvLeave); (2, EvEnter)]%nat)))
  <= Z.max (MaxActive (streamer threeCalls)) 0.
Proof.
  assert (Hf : fresh threeCalls) by (split; [reflexivity|repeat constructor]).
  assert (Hn : Z.of_nat (length (sessions threeCalls)) < 2 ^ 31) by reflexivity.
  split; [exact Hf|]. split; [exact Hn|].
  exact (X1_never_more_than_MaxActive_streaming threeCalls _ Hf Hn).
Defined.

Lemma X2_witness :
  fresh threeCalls /\ Z.of_nat (length (sessions threeCalls)) < 2 ^ 31 /\
  sessions (exec threeCalls [(0, EvEnter); (0, EvTimeout); (0, EvLeave)]%nat) !! 1%nat
  = Some (start neverChanged plainWriter) /\
  cons (start neverChanged plainWriter) = CStart /\
  (cons (snd (step (streamer (exec threeCalls
                                   [(0, EvEnter); (0, EvTimeout); (0, EvLeave)]%nat))
                   (start neverChanged plainWriter) EvEnter)) = CLoop
   <-> Z.of_nat (countb inflight
                   (sessions (exec threeCalls
                                   [(0, EvEnter); (0, EvTimeout); (0, EvLeave)]%nat)))
       < MaxActive (streamer threeCalls)).
Proof.
  assert (Hf : fresh threeCalls) by (split; [reflexivity|repeat constructor]).
  assert (Hn : Z.of_nat (length (sessions threeCalls)) < 2 ^ 31) by reflexivity.
  split; [exact Hf|]. split; [exact Hn|]. split; [reflexivity|]. split; [reflexivity|].
  exact (proj1 (X2_accepted_iff_slot_free threeCalls
                  [(0, EvEnter); (0, EvTimeout); (0, EvLeave)]%nat 1%nat
                  (start neverChanged plainWriter) Hf Hn eq_refl eq_refl)).
Defined.

(** ** The sink trace *)

Lemma existsb_failed_app a b :
  existsb failedOp (a ++ b) = existsb failedOp a || existsb failedOp b.
Proof. apply existsb_app. Qed.

(** As long as no write has failed, one more payload goes on from where
    the sink is. *)
Lemma feed_snoc wr hist ps p :
  existsb failedOp (feed wr hist ps) = false ->
  feed wr hist (ps ++ [p]) =
  feed wr hist ps ++ feed wr (hist ++ feed wr hist ps) [p].
Proof.
  revert hist. induction ps as [|q ps IH]; intros hist H.
  - change ([] ++ [p]) with [p]. cbn [feed]. now rewrite (app_nil_r hist).
  - rewrite <- app_comm_cons. cbn [feed] in *.
    destruct (Write wr hist q) as [e|]; [discriminate|].
    cbv zeta in *.
    set (blk := OpWrite q None :: (if isFlusher wr then [OpFlush] else [])) in *.
    rewrite existsb_failed_app in H. apply orb_false_iff in H as [_ H].
    rewrite (IH _ H). now rewrite <- !app_assoc.
Qed.

Lemma feed_next wr o d :
  o = feed wr [] (writes o) -> existsb failedOp o = false ->
  feed wr [] (writes o ++ [d]) = o ++ feed wr o [d].
Proof.
  intros Ho Hok. rewrite feed_snoc by (now rewrite <- Ho).
  simpl. now rewrite <- Ho.
Qed.

Lemma step_sink_inv s x e : sink_inv x -> sink_inv (snd (step s x e)).
Proof.
  unfold sink_inv. destruct x as [f0 w0 cn n p k c o].
  destruct e; step_cases; intros [Ho Hok]; try (split; assumption).
  1: { (* the write failed *)
    rewrite writes_app. simpl. split.
    + rewrite (feed_next w0 o _ Ho Hok). simpl.
      match goal with E : Write _ _ _ = _ |- _ => now rewrite E end.
    + eexists o, _, _. repeat split; eauto. }
  (* the write succeeded, the sink a flusher or not *)
  all: rewrite writes_app; simpl; split;
    [ rewrite (feed_next w0 o _ Ho Hok); simpl;
      repeat match goal with
             | E : Write _ _ _ = _ |- _ => rewrite E; clear E
             | E : isFlusher _ = _ |- _ => rewrite E; clear E
             end; reflexivity
    | rewrite existsb_failed_app, Hok; reflexivity ].
Qed.

Lemma Activate_sink_inv s f wr sched : sink_inv (snd (Activate s f wr sched)).
Proof.
  unfold Activate. apply (run_invariant (fun _ x => sink_inv x)).
  - intros; now apply step_sink_inv.
  - unfold sink_inv, start. simpl. auto.
Qed.

(** X3: under every schedule, what was done to the sink is what handing
    it the written payloads one after the other does: each [Write] is on
    the sink as the operations before left it, a [Write] that succeeds is
    followed by a [Flush] exactly if the sink is a flusher, and a [Write]
    that fails is the last operation; a [Write] has failed exactly when
    [Activate] is at, or has returned from, the [return] of line 58. *)
Theorem X3_sink_trace_is_feed s f wr sched :
  let x := snd (Activate s f wr sched) in
  ops x = feed wr [] (writes (ops x)) /\
  (existsb failedOp (ops x) = true <-> exists r, exitOf x = Some (ByWriteErr, r)).
Proof.
  intros x. destruct (Activate_sink_inv s f wr sched) as [Hf Hc].
  destruct (Activate_fn_w s f wr sched) as [_ Hw]. fold x in Hf, Hc, Hw.
  rewrite Hw in Hf. split; [exact Hf|].
  unfold exitOf. destruct (cons x) as [| |c r|c r]; try destruct c;
    try (split; [intros H; congruence|intros [r' H]; congruence]).
  all: destruct Hc as (o & p & e & -> & _); split; [eauto|intros _];
    rewrite existsb_failed_app; simpl; apply orb_true_r.
Qed.

(** X4: whatever the schedule, a value [Activate] returns is nil, or the
    too-many-streams error, or an error the check function returned at
    one of its polls, wrapped in "can't get stream data", or the error of
    the last [Write] on the sink, wrapped in "send to stream failed"; and
    the three kinds of error are different values. *)
Theorem X4_return_values s f wr sched r :
  let x := snd (Activate s f wr sched) in
  returned x = Some r ->
  (r = None \/ r = Some tooManyStreams \/
   (exists k e, (k < calls x)%nat /\ snd (f k) = Some e /\
                r = Some (errWrap e producerMsg)) \/
   (exists o p e, ops x = o ++ [OpWrite p (Some e)] /\ Write wr o p = Some e /\
                  r = Some (errWrap e sinkMsg))) /\
  (forall e e', tooManyStreams <> errWrap e producerMsg /\
                tooManyStreams <> errWrap e sinkMsg /\
                errWrap e producerMsg <> errWrap e' sinkMsg).
Proof.
  intros x Hr. split.
  - destruct (Activate_sink_inv s f wr sched) as [_ Hc].
    destruct (Activate_shapes s f wr sched) as [_ Hs].
    destruct (Activate_fn_w s f wr sched) as [Hf Hw].
    fold x in Hc, Hs, Hf, Hw. unfold exit_shape, exitOf in Hs.
    unfold returned in Hr.
    destruct (cons x) as [| |c r'|c r']; try discriminate.
    injection Hr as ->. destruct c; try tauto.
    + destruct Hs as (k & e & Hk & He & ->). rewrite Hf in He.
      right; right; left. exists k, e. auto.
    + rewrite Hw in Hc.
      destruct Hc as (o & p & e & Ho & _ & HW & ->). right; right; right.
      exists o, p, e. auto.
  - intros e e'. repeat split; intros H; discriminate.
Qed.

Lemma X4_witness :
  returned (snd (Activate oneStreamer alwaysChanged brokenWriter
                          [EvEnter; EvTick; EvRecv; EvLeave]))
  = Some (Some (errWrap (errNew "broken pipe") sinkMsg)) /\
  forall e e', tooManyStreams <> errWrap e producerMsg /\
               tooManyStreams <> errWrap e sinkMsg /\
               errWrap e producerMsg <> errWrap e' sinkMsg.
Proof.
  split; [reflexivity|].
  exact (proj2 (X4_return_values oneStreamer alwaysChanged brokenWriter
                  [EvEnter; EvTick; EvRecv; EvLeave]
                  (Some (errWrap (errNew "broken pipe") sinkMsg)) eq_refl)).
Defined.

(** ** The producer goroutine *)

(** X5: a producer blocked in its send when [Activate] has passed line 36
    and is not in its loop, being rejected or at or past a [return], stays
    blocked in that send under every schedule, cancellation included: it
    never polls again, never returns and never closes the channel. *)
Theorem X5_blocked_send_is_never_released s f wr sched r :
  let s1 := fst (Activate s f wr sched) in
  let x := snd (Activate s f wr sched) in
  prod x = PSend r -> entered x = true -> cons x <> CLoop ->
  forall more,
    prod (snd (run s1 x more)) = PSend r /\
    calls (snd (run s1 x more)) = calls x.
Proof.
  intros s1 x Hp He Hc more.
  enough (H : (prod (snd (run s1 x more)) = PSend r /\
               calls (snd (run s1 x more)) = calls x) /\
              entered (snd (run s1 x more)) = true /\
              cons (snd (run s1 x more)) <> CLoop) by tauto.
  apply (run_invariant
           (fun _ y => (prod y = PSend r /\ calls y = calls x) /\
                       entered y = true /\ cons y <> CLoop)); [|auto].
  intros s' y e. unfold entered. generalize (calls x) as n0.
  session_cases y e; intros n0 [[H1 H2] [H3 H4]]; simplify_eq/=; auto.
Qed.

Lemma X5_witness :
  let x := snd (Activate closedStreamer alwaysChanged goodWriter [EvTick; EvEnter]) in
  let s1 := fst (Activate closedStreamer alwaysChanged goodWriter [EvTick; EvEnter]) in
  prod x = PSend (mkResp (payload 0) None) /\ entered x = true /\ cons x <> CLoop /\
  prod (snd (run s1 x [EvCancel; EvProdDone; EvRecv; EvLeave; EvTick]))
  = PSend (mkResp (payload 0) None).
Proof.
  intros x s1.
  assert (Hc : cons x <> CLoop) by (vm_compute; discriminate).
  split; [reflexivity|]. split; [reflexivity|]. split; [exact Hc|].
  exact (proj1 (X5_blocked_send_is_never_released closedStreamer alwaysChanged
                  goodWriter [EvTick; EvEnter] (mkResp (payload 0) None)
                  eq_refl eq_refl Hc [EvCancel; EvProdDone; EvRecv; EvLeave; EvTick])).
Defined.

Lemma step_closed_inv s x e : closed_inv x -> closed_inv (snd (step s x e)).
Proof.
  unfold closed_inv, exitOf.
  session_cases x e; intros H Hp; simplify_eq/=; eauto;
    try (destruct (H eq_refl) as [?|[? ?]]; simplify_eq/=; eauto).
Qed.

(** X6: the producer returns, closing the channel, only after the context
    was cancelled or after the consumer took its error record and left by
    line 55; once the channel is closed it stays closed and the check
    function is not called again. *)
Theorem X6_channel_closed_only_after s f wr sched :
  let s1 := fst (Activate s f wr sched) in
  let x := snd (Activate s f wr sched) in
  prod x = PClosed ->
  (cancelled x = true \/ exists r, exitOf x = Some (ByRespErr, r)) /\
  forall more,
    prod (snd (run s1 x more)) = PClosed /\
    calls (snd (run s1 x more)) = calls x.
Proof.
  intros s1 x Hp. split.
  - assert (H : closed_inv x).
    { unfold x, Activate. apply (run_invariant (fun _ y => closed_inv y)).
      - intros; now apply step_closed_inv.
      - intros H; discriminate. }
    exact (H Hp).
  - intros more.
    apply (run_invariant (fun _ y => prod y = PClosed /\ calls y = calls x)); [|auto].
    intros s' y e. generalize (calls x) as n0.
    session_cases y e; intros n0 [H1 H2]; simplify_eq/=; auto.
Qed.

Lemma X6_witness :
  let x := snd (Activate oneStreamer alwaysChanged goodWriter
                         [EvEnter; EvCancel; EvProdDone]) in
  prod x = PClosed /\
  (cancelled x = true \/ exists r, exitOf x = Some (ByRespErr, r)).
Proof.
  intros x. split; [reflexivity|].
  exact (proj1 (X6_channel_closed_only_after oneStreamer alwaysChanged goodWriter
                  [EvEnter; EvCancel; EvProdDone] eq_refl)).
Defined.

Lemma run_calls_ticks s x l :
  (calls x <= calls (snd (run s x l)) <= calls x + ticks l)%nat.
Proof.
  revert s x. induction l as [|e l IH]; intros s x; [simpl; lia|].
  rewrite run_cons.
  specialize (IH (fst (step s x e)) (snd (step s x e))).
  assert (H : (calls x <= calls (snd (step s x e))
               <= calls x + ticks [e])%nat).
  { clear. session_cases x e; lia. }
  destruct e; simpl in *; lia.
Qed.

(** X7: the check function is invoked at most once for each tick of the
    ticker in the schedule, and by nothing else: not by the consumer, a
    cancellation or a timeout. *)
Theorem X7_at_most_one_poll_per_tick s f wr sched :
  (calls (snd (Activate s f wr sched)) <= ticks sched)%nat.
Proof.
  unfold Activate.
  pose proof (run_calls_ticks s (start f wr) sched) as H. simpl in H. lia.
Qed.

(** ** Streams beside each other *)

Lemma setActive_same s : setActive s (activeCount s) = s.
Proof. now destruct s. Qed.

Lemma setActive_step s x e c : setActive (fst (step s x e)) c = setActive s c.
Proof. unfold setActive. now destruct (step_config s x e) as (-> & -> & ->). Qed.

(** Past line 36 a call does not look at the streamer any more. *)
Lemma step_entered_any s s' x e :
  entered x = true -> snd (step s x e) = snd (step s' x e).
Proof. unfold entered. session_cases x e; intros; simplify_eq/=; reflexivity. Qed.

Lemma run_entered_any s s' x l :
  entered x = true -> snd (run s x l) = snd (run s' x l).
Proof.
  revert s s' x. induction l as [|e l IH]; intros s s' x H; [reflexivity|].
  rewrite !run_cons. rewrite (step_entered_any s s' x e H).
  apply IH. now apply step_entered.
Qed.

(** Before line 36 only the move to line 36 looks at the streamer. *)
Lemma step_start_any s s' x e :
  cons x = CStart -> e <> EvEnter ->
  snd (step s x e) = snd (step s' x e) /\ fst (step s x e) = s.
Proof. session_cases x e; intros; simplify_eq/=; auto. Qed.

Lemma exec_projection sched :
  forall S i x0, sessions S !! i = Some x0 ->
  exists c, sessions (exec S sched) !! i =
            Some (snd (run (setActive (streamer S) c) x0 (eventsOf i sched))).
Proof.
  induction sched as [|[j e] l IH]; intros S i x0 Hi.
  - exists 0. exact Hi.
  - simpl. unfold sys_step. simpl.
    destruct (Nat.eqb_spec j i) as [->|Hne].
    + rewrite Hi. destruct (step (streamer S) x0 e) as [s' z'] eqn:Es.
      destruct (IH (mkSystem s' (<[i:=z']> (sessions S))) i z') as [c Hc].
      { simpl. apply list_lookup_insert_eq. now apply lookup_lt_Some in Hi. }
      simpl in Hc. rewrite Hc.
      assert (Hs' : s' = fst (step (streamer S) x0 e)) by now rewrite Es.
      assert (Hz' : z' = snd (step (streamer S) x0 e)) by now rewrite Es.
      destruct (entered x0) eqn:Hent.
      * exists c. f_equal. rewrite run_cons.
        rewrite (step_entered_any (setActive (streamer S) c) (streamer S) x0 e Hent).
        rewrite <- Hz'. apply run_entered_any.
        rewrite Hz'. now apply step_entered.
      * assert (Hst : cons x0 = CStart)
          by (unfold entered in Hent; destruct (cons x0); congruence).
        assert (He : e = EvEnter \/ e <> EvEnter)
          by (destruct e; (left; reflexivity) || (right; discriminate)).
        destruct He as [->|He].
        -- exists (activeCount (streamer S)). f_equal.
           rewrite run_cons, setActive_same, <- Hs', <- Hz'.
           apply run_entered_any. rewrite Hz'. apply step_enter_now.
        -- exists c. f_equal. rewrite run_cons.
           destruct (step_start_any (setActive (streamer S) c) (streamer S) x0 e Hst He)
             as [E1 E2].
           destruct (step_start_any (streamer S) (streamer S) x0 e Hst He) as [_ E3].
           rewrite E1, E2, <- Hz'. rewrite Hs', E3. reflexivity.
    + destruct (sessions S !! j) as [z|] eqn:Ej; [|now apply IH].
      destruct (step (streamer S) z e) as [s' z'] eqn:Es.
      destruct (IH (mkSystem s' (<[j:=z']> (sessions S))) i x0) as [c Hc].
      { simpl. now rewrite list_lookup_insert_ne. }
      exists c. rewrite Hc. simpl.
      assert (Hs' : s' = fst (step (streamer S) z e)) by now rewrite Es.
      now rewrite Hs', setActive_step.
Qed.

(** X8: streams on one streamer meet only in the counter.  Under every
    interleaving, what a stream has become is what its own moves alone
    make of it on the same streamer with some value of the counter: the
    moves of the other streams change nothing of it but the count it
    finds at line 36. *)
Theorem X8_streams_meet_only_in_the_counter S sched i x0 :
  sessions S !! i = Some x0 ->
  exists c, sessions (exec S sched) !! i =
            Some (snd (run (setActive (streamer S) c) x0 (eventsOf i sched))).
Proof. apply exec_projection. Qed.

Lemma X8_witness :
  sessions threeCalls !! 2%nat = Some (start (failsAt 0) goodWriter) /\
  exists c, sessions (exec threeCalls
                           [(0, EvEnter); (2, EvTick); (1, EvEnter); (2, EvEnter)]%nat)
              !! 2%nat
            = Some (snd (run (setActive (streamer threeCalls) c)
                             (start (failsAt 0) goodWriter)
                             (eventsOf 2 [(0, EvEnter); (2, EvTick); (1, EvEnter);
                                          (2, EvEnter)]%nat))).
Proof.
  split; [reflexivity|].
  exact (X8_streams_meet_only_in_the_counter threeCalls
           [(0, EvEnter); (2, EvTick); (1, EvEnter); (2, EvEnter)]%nat 2%nat
           (start (failsAt 0) goodWriter) eq_refl).
Defined.

(** X9: each stream of a streamer gets the payloads of its own check
    function on its own sink, whatever the other streams do: what was
    written to its sink and what its producer is still sending is what its
    check function produced, in order, and what was done to its sink is
    what feeding the written payloads to that sink does. *)
Theorem X9_no_cross_talk S sched i f wr :
  sessions S !! i = Some (start f wr) ->
  exists x, sessions (exec S sched) !! i = Some x /\
            writes (ops x) ++ pending x = producedOf (polled f (calls x)) /\
            ops x = feed wr [] (writes (ops x)).
Proof.
  intros Hi.
  destruct (exec_session
              (fun y => delivery_inv y /\ sink_inv y /\ fn y = f /\ w y = wr))
    with (sched := sched) (S := S) (i := i) (y := start f wr)
    as (x & Hx & Hd & [Hs _] & Hf & Hw).
  - intros s y e (H1 & H2 & H3 & H4).
    split; [now apply step_delivery_inv|]. split; [now apply step_sink_inv|].
    destruct (step_same_fn_w s y e) as [-> ->]. auto.
  - exact Hi.
  - split; [reflexivity|]. split; [|auto]. unfold sink_inv. simpl. auto.
  - exists x. unfold delivery_inv in Hd. rewrite Hf in Hd. rewrite Hw in Hs. auto.
Qed.

Lemma X9_witness :
  sessions threeCalls !! 0%nat = Some (start alwaysChanged goodWriter) /\
  exists x, sessions (exec threeCalls
                           [(0, EvEnter); (1, EvEnter); (0, EvTick); (0, EvRecv)]%nat)
              !! 0%nat = Some x /\
            writes (ops x) ++ pending x = producedOf (polled alwaysChanged (calls x)) /\
            ops x = feed goodWriter [] (writes (ops x)).
Proof.
  split; [reflexivity|].
  exact (X9_no_cross_talk threeCalls
           [(0, EvEnter); (1, EvEnter); (0, EvTick); (0, EvRecv)]%nat 0%nat
           alwaysChanged goodWriter eq_refl).
Defined.

(** ** The counter at its bounds *)

Lemma step_accepting M c0 s x e :
  AddInt32 c0 1 <= M ->
  accepting M c0 s x -> accepting M c0 (fst (step s x e)) (snd (step s x e)).
Proof.
  unfold accepting. intros HM.
  session_cases x e; intros H; simplify_eq/=; try tauto; try lia; auto.
  - destruct H as [<- <-]. lia.
  - destruct H as [<- _]. reflexivity.
Qed.

(** X10: the counter is an [int32] and its increment wraps around.  A
    call that finds the counter at 2^31 - 1 gets the count -2^31, which
    exceeds no [MaxActive]: the call is accepted whatever the limit is,
    zero included, and stays so. *)
Theorem X10_counter_overflow_admits s f wr pre post :
  activeCount s = 2 ^ 31 - 1 -> int32 (MaxActive s) ->
  let x := snd (Activate s f wr (pre ++ EvEnter :: post)) in
  count x = - 2 ^ 31 /\ accepted x = true.
Proof.
  intros Hc HM x.
  assert (Hadd : AddInt32 (activeCount s) 1 = - 2 ^ 31) by (rewrite Hc; reflexivity).
  assert (Hle : AddInt32 (activeCount s) 1 <= MaxActive s)
    by (rewrite Hadd; unfold int32 in HM; lia).
  assert (Hacc : accepting (MaxActive s) (activeCount s)
                           (fst (Activate s f wr (pre ++ EvEnter :: post))) x).
  { unfold x, Activate.
    apply (run_invariant (accepting (MaxActive s) (activeCount s))).
    - intros; now apply step_accepting.
    - unfold accepting, start; simpl; auto. }
  assert (Hent : entered x = true).
  { unfold x, Activate.
    replace (pre ++ EvEnter :: post) with ((pre ++ [EvEnter]) ++ post)
      by (rewrite <- app_assoc; reflexivity).
    rewrite run_app. apply run_entered. apply run_enter_entered. }
  unfold accepting in Hacc. unfold accepted, rejected. rewrite Hent.
  unfold entered in Hent.
  destruct (cons x) as [| |[] r|[] r]; try discriminate; try tauto;
    rewrite Hacc, Hadd; auto.
Qed.

Lemma X10_witness :
  activeCount fullStreamer = 2 ^ 31 - 1 /\ int32 (MaxActive fullStreamer) /\
  accepted (snd (Activate fullStreamer neverChanged plainWriter
                          ([EvTick] ++ EvEnter :: [EvTimeout]))) = true.
Proof.
  assert (HM : int32 (MaxActive fullStreamer)) by (unfold int32; simpl; lia).
  split; [reflexivity|]. split; [exact HM|].
  exact (proj2 (X10_counter_overflow_admits fullStreamer neverChanged plainWriter
                  [EvTick] [EvTimeout] eq_refl HM)).
Defined.

(** ** A stream with nothing to report, by the clock *)




(** ** The producer after [Activate] *)

Lemma run_silent_polls s x l :
  silent (fn x) -> prod x = PSelect -> cancelled x = false ->
  ~ In EvCancel l ->
  calls (snd (run s x l)) = (calls x + ticks l)%nat /\
  prod (snd (run s x l)) = PSelect /\
  cancelled (snd (run s x l)) = false.
Proof.
  revert s x. induction l as [|e l IH]; intros s x Hsil Hp Hc Hno.
  - simpl. auto with arith.
  - rewrite run_cons.
    assert (He : e <> EvCancel) by (intros ->; apply Hno; now left).
    assert (Hl : ~ In EvCancel l) by (intros H; apply Hno; now right).
    assert (Hstep : silent (fn (snd (step s x e))) /\
                    prod (snd (step s x e)) = PSelect /\
                    cancelled (snd (step s x e)) = false /\
                    calls (snd (step s x e)) = (calls x + ticks [e])%nat).
    { destruct (step_same_fn_w s x e) as [Hfn _]. rewrite Hfn.
      split; [exact Hsil|]. clear IH Hno Hl Hfn.
      destruct x as [f0 w0 cn n p k c o]. simpl in *. subst p cn.
      destruct (Hsil n) as [p0 Hf].
      destruct e; try congruence; unfold step, eventsCh_tick, Activate_enter, Activate_recv;
        simpl; rewrite ?Hf; repeat (goal_match; simpl); auto with arith.
      all: repeat split; auto; simpl; lia. }
    destruct Hstep as (H1 & H2 & H3 & H4).
    destruct (IH (fst (step s x e)) _ H1 H2 H3 Hl) as (G1 & G2 & G3).
    rewrite G1, H4. repeat split; auto.
    destruct e; simpl; lia.
Qed.

(** X12: nothing but the cancellation of the context stops the producer.
    With a check function that never reports a change and a context that
    is not cancelled, the producer polls at every tick of the schedule,
    whatever [Activate] does meanwhile: rejected, at a [return] or
    returned, its producer goes on polling. *)
Theorem X12_producer_outlives_Activate s f wr sched :
  silent f -> ~ In EvCancel sched ->
  let x := snd (Activate s f wr sched) in
  calls x = ticks sched /\ prod x = PSelect.
Proof.
  intros Hsil Hno x.
  destruct (run_silent_polls s (start f wr) sched Hsil eq_refl eq_refl Hno)
    as (H1 & H2 & _).
  split; [exact H1|exact H2].
Qed.

Lemma X12_witness :
  silent neverChanged /\
  ~ In EvCancel [EvTick; EvEnter; EvLeave; EvTick; EvTick] /\
  returned (snd (Activate closedStreamer neverChanged plainWriter
                          [EvTick; EvEnter; EvLeave; EvTick; EvTick]))
  = Some (Some tooManyStreams) /\
  calls (snd (Activate closedStreamer neverChanged plainWriter
                       [EvTick; EvEnter; EvLeave; EvTick; EvTick]))
  = ticks [EvTick; EvEnter; EvLeave; EvTick; EvTick].
Proof.
  assert (Hs : silent neverChanged) by (intros k; exists None; reflexivity).
  assert (Hn : ~ In EvCancel [EvTick; EvEnter; EvLeave; EvTick; EvTick])
    by (simpl; intuition discriminate).
  split; [exact Hs|]. split; [exact Hn|]. split; [reflexivity|].
  exact (proj1 (X12_producer_outlives_Activate closedStreamer neverChanged plainWriter
                  [EvTick; EvEnter; EvLeave; EvTick; EvTick] Hs Hn)).
Defined.
